(** * Distributed-Cache-Go: the LRU eviction engine and its facade

    A shallow embedding of package [lru] (the engine: [LruCache] with its
    recency list, index map, expiry map and byte counter, and the [Store]
    interface) and of package [main] (the [Cache] facade), followed by the
    properties of the specification that are settled against them.

    Go features the code relies on are modelled explicitly:
    - a call either returns or stops with a run-time fault (a panic of a
      failed type assertion or of a nil dereference, a fatal error of the
      [sync] package, or a goroutine waiting for a lock for ever);
    - [defer] runs when the body returns and when it panics;
    - [int] and [int64] arithmetic wraps around at 64 bits;
    - a value stored in an [interface{}] carries its dynamic type;
    - [time.Now()] is an input: every reading is an argument. *)

From stdpp Require Import gmap strings list fin_maps.
From Stdlib Require Import ZArith Lia.

Open Scope Z_scope.

(** ** The Go run time *)

Module Go.

(** How a call can stop without returning. *)
Inductive Fault : Type :=
| PanicTypeAssertion   (* panic: interface conversion: x.(T) on another dynamic type *)
| PanicNilDeref        (* panic: invalid memory address or nil pointer dereference *)
| PanicCloseClosed     (* panic: close of closed channel *)
| FatalRUnlock         (* fatal error: sync: RUnlock of unlocked RWMutex *)
| FatalUnlock          (* fatal error: sync: Unlock of unlocked RWMutex *)
| Blocked              (* the goroutine waits for a lock that is held *)
| OutOfFuel.           (* the model's loop bound was reached (shown impossible) *)

(** Panics unwind the stack and run the deferred calls; fatal errors and
    blocked goroutines do not. *)
Definition is_panic (f : Fault) : bool :=
  match f with
  | PanicTypeAssertion | PanicNilDeref | PanicCloseClosed => true
  | _ => false
  end.

Inductive Outcome (S A : Type) : Type :=
| Ret (a : A) (s : S)
| Crash (f : Fault) (s : S).
Arguments Ret {S A} a s.
Arguments Crash {S A} f s.

(** Code that runs on a state [S] and returns an [A], or stops. *)
Definition M (S A : Type) : Type := S -> Outcome S A.

Definition ret {S A} (a : A) : M S A := fun s => Ret a s.

Definition bind {S A B} (m : M S A) (k : A -> M S B) : M S B :=
  fun s => match m s with
           | Ret a s' => k a s'
           | Crash f s' => Crash f s'
           end.

Definition crash {S A} (f : Fault) : M S A := fun s => Crash f s.

Definition get {S} : M S S := fun s => Ret s s.

Definition modify {S} (g : S -> S) : M S unit := fun s => Ret tt (g s).

Arguments ret {S A} a s /.
Arguments bind {S A B} m k s /.
Arguments crash {S A} f s /.
Arguments get {S} s /.
Arguments modify {S} g s /.

(** [defer d; body]: [d] runs after [body] returned, and while a panic of
    [body] unwinds. *)
Definition defer {S A} (d : M S unit) (body : M S A) : M S A :=
  fun s => match body s with
           | Ret a s1 =>
               match d s1 with
               | Ret _ s2 => Ret a s2
               | Crash f s2 => Crash f s2
               end
           | Crash f s1 =>
               if is_panic f
               then match d s1 with
                    | Ret _ s2 => Crash f s2
                    | Crash f' s2 => Crash f' s2
                    end
               else Crash f s1
           end.

(** [int64(x)] of a mathematical integer: two's complement wrap-around
    ([int] is 64 bits wide as well). *)
Definition wrap64 (z : Z) : Z := (z + 2 ^ 63) mod 2 ^ 64 - 2 ^ 63.

(** [int32(x)] *)
Definition wrap32 (z : Z) : Z := (z + 2 ^ 31) mod 2 ^ 32 - 2 ^ 31.

(** What is left of an outcome when the state is put aside. *)
Definition faultOf {S A} (o : Outcome S A) : option Fault :=
  match o with Ret _ _ => None | Crash f _ => Some f end.

Definition resultOf {S A} (o : Outcome S A) : option A :=
  match o with Ret a _ => Some a | Crash _ _ => None end.

Definition stateOf {S A} (o : Outcome S A) : S :=
  match o with Ret _ s | Crash _ s => s end.

(** [sync.RWMutex], as seen by the goroutine that runs the call. *)
Record RWMutex : Type := mkRWMutex { writer : bool; readers : nat }.

Definition unlocked : RWMutex := mkRWMutex false 0.

Inductive LockResult : Type :=
| Acquired (m : RWMutex)
| Refused (f : Fault).

Definition Lock (m : RWMutex) : LockResult :=
  if writer m || negb (Nat.eqb (readers m) 0)
  then Refused Blocked
  else Acquired (mkRWMutex true 0).

Definition Unlock (m : RWMutex) : LockResult :=
  if writer m
  then Acquired (mkRWMutex false (readers m))
  else Refused FatalUnlock.

Definition RLock (m : RWMutex) : LockResult :=
  if writer m
  then Refused Blocked
  else Acquired (mkRWMutex false (S (readers m))).

Definition RUnlock (m : RWMutex) : LockResult :=
  match readers m with
  | O => Refused FatalRUnlock
  | S n => Acquired (mkRWMutex (writer m) n)
  end.

(** [time.Time] and [time.Duration], in nanoseconds. *)
Abbreviation Time := Z (only parsing).
Abbreviation Duration := Z (only parsing).

Definition Minute : Duration := 60 * 1000000000.

(** [now.After(t)] *)
Definition After (now t : Time) : bool := t <? now.

(** The readings of [time.Now()] during one call, in the order they are
    taken. *)
Abbreviation Clock := (nat -> Z) (only parsing).

End Go.

Export Go.

Notation "'let*' x ':=' m 'in' k" := (bind m (fun x => k))
  (at level 10, x name, m at level 100, k at level 200).
Notation "m1 ';;' m2" := (bind m1 (fun _ => m2))
  (at level 100, m2 at level 200, right associativity).

(** ** Package lru: the eviction engine (store.go, lru.go) *)

Module lru.

(** Modelled from the spec: the facade's value wrapper [ByteView] is not
    among the sources; the spec calls it the byte-sized value wrapper, so
    it holds bytes and its [Len()] is their number. *)
Record ByteView : Type := mkByteView { b : list Byte.byte }.

(** [type Value interface { Len() int }]: a value of the interface is the
    facade's [ByteView] or a value of any other implementing type, given
    by a tag and by what its [Len()] returns (an [int]). The nil
    interface is [None] of [option Value]. *)
Inductive Value : Type :=
| ValByteView (bv : ByteView)
| ValOther (tag : nat) (len : Z).

Definition Len (v : Value) : Z :=
  match v with
  | ValByteView bv => Z.of_nat (length (b bv))
  | ValOther _ n => wrap64 n
  end.

(** [type LruEntry struct { key string; value Value }] *)
Record LruEntry : Type := mkLruEntry { key : string; value : Value }.

(** What a [list.Element] holds in its [Value interface{}] field: the
    dynamic type, and the entry it is or leads to. Each entry is owned by
    its list node, so the pointee is kept in place of an address. *)
Inductive Any : Type :=
| AnyEntry (e : LruEntry)        (* dynamic type LruEntry *)
| AnyPtr (e : LruEntry)          (* dynamic type *LruEntry *)
| AnyPtrPtr (e : LruEntry).      (* dynamic type **LruEntry *)

Definition entryOf (a : Any) : LruEntry :=
  match a with AnyEntry e | AnyPtr e | AnyPtrPtr e => e end.

(** [*list.Element]: [eid] is the address of the element. *)
Record Element : Type := mkElement { eid : nat; EValue : Any }.

(** The errors the engine builds with [fmt.Errorf]. *)
Inductive error : Type :=
| ErrUpdateCapacity                  (* update: the size after the update exceeds the capacity *)
| ErrAddAndUpdateUpdate (e : error)  (* AddAndUpdateCache: update failed: e *)
| ErrAddAndUpdateEvict (e : error)   (* AddAndUpdateCache: evict failed: e *)
| ErrDeleteCache (e : error)         (* DeleteCache: e *)
| ErrCleanupLoop (e : error)         (* cleanupLoop: e *)
| ErrEvictExpired (e : error)        (* evict, expiry pass: e *)
| ErrEvictCapacity (e : error).      (* evict, capacity pass: e *)

(** A line written through the [*zap.Logger]. *)
Inductive LogLine : Type :=
| LogError (e : error)               (* c.log.Error(err.Error()) *)
| LogDeleteFailed.                   (* c.log.Error of DeleteCache's fixed message *)

(** [type Options struct] (store.go; lru.go reads the same three fields
    in lower case). [OnEvicted] records whether a callback is given. *)
Record Options : Type := mkOptions {
  MaxBytes : Z;
  OnEvicted : bool;
  CleanupInterval : Duration
}.

(** [type LruCache struct]. The last three fields are not Go fields: the
    next free element address, the calls made to the eviction callback,
    and the goroutines [FindCache] has started ([DeleteCache] of a key)
    that have not run yet. *)
Record LruCache : Type := mkLruCache {
  list_ : list Element;              (* list *list.List, head first *)
  items : gmap string nat;           (* map[string]*list.Element *)
  maxBytes : Z;
  currentBytes : Z;
  mu : RWMutex;
  onEvicted : bool;                  (* onEvicted != nil *)
  expires : gmap string Z;           (* map[string]time.Time *)
  cleanupInterval : Duration;
  cleanTicker : option Duration;     (* nil, or a ticker of that period *)
  closeChan : bool;                  (* true once closed *)
  log : option (list LogLine);       (* nil, or a logger and what it wrote *)
  nextElem : nat;
  evictions : list (string * Value);
  goroutines : list string
}.

Definition set_list_ (l : list Element) (c : LruCache) : LruCache :=
  mkLruCache l (items c) (maxBytes c) (currentBytes c) (mu c) (onEvicted c)
    (expires c) (cleanupInterval c) (cleanTicker c) (closeChan c) (log c)
    (nextElem c) (evictions c) (goroutines c).
Definition set_items (m : gmap string nat) (c : LruCache) : LruCache :=
  mkLruCache (list_ c) m (maxBytes c) (currentBytes c) (mu c) (onEvicted c)
    (expires c) (cleanupInterval c) (cleanTicker c) (closeChan c) (log c)
    (nextElem c) (evictions c) (goroutines c).
Definition set_currentBytes (n : Z) (c : LruCache) : LruCache :=
  mkLruCache (list_ c) (items c) (maxBytes c) n (mu c) (onEvicted c)
    (expires c) (cleanupInterval c) (cleanTicker c) (closeChan c) (log c)
    (nextElem c) (evictions c) (goroutines c).
Definition set_mu (m : RWMutex) (c : LruCache) : LruCache :=
  mkLruCache (list_ c) (items c) (maxBytes c) (currentBytes c) m (onEvicted c)
    (expires c) (cleanupInterval c) (cleanTicker c) (closeChan c) (log c)
    (nextElem c) (evictions c) (goroutines c).
Definition set_expires (m : gmap string Z) (c : LruCache) : LruCache :=
  mkLruCache (list_ c) (items c) (maxBytes c) (currentBytes c) (mu c) (onEvicted c)
    m (cleanupInterval c) (cleanTicker c) (closeChan c) (log c)
    (nextElem c) (evictions c) (goroutines c).
Definition set_log (l : option (list LogLine)) (c : LruCache) : LruCache :=
  mkLruCache (list_ c) (items c) (maxBytes c) (currentBytes c) (mu c) (onEvicted c)
    (expires c) (cleanupInterval c) (cleanTicker c) (closeChan c) l
    (nextElem c) (evictions c) (goroutines c).
Definition set_nextElem (n : nat) (c : LruCache) : LruCache :=
  mkLruCache (list_ c) (items c) (maxBytes c) (currentBytes c) (mu c) (onEvicted c)
    (expires c) (cleanupInterval c) (cleanTicker c) (closeChan c) (log c)
    n (evictions c) (goroutines c).
Definition set_evictions (l : list (string * Value)) (c : LruCache) : LruCache :=
  mkLruCache (list_ c) (items c) (maxBytes c) (currentBytes c) (mu c) (onEvicted c)
    (expires c) (cleanupInterval c) (cleanTicker c) (closeChan c) (log c)
    (nextElem c) l (goroutines c).
Definition set_goroutines (l : list string) (c : LruCache) : LruCache :=
  mkLruCache (list_ c) (items c) (maxBytes c) (currentBytes c) (mu c) (onEvicted c)
    (expires c) (cleanupInterval c) (cleanTicker c) (closeChan c) (log c)
    (nextElem c) (evictions c) l.
Definition set_closeChan (x : bool) (c : LruCache) : LruCache :=
  mkLruCache (list_ c) (items c) (maxBytes c) (currentBytes c) (mu c) (onEvicted c)
    (expires c) (cleanupInterval c) (cleanTicker c) x (log c)
    (nextElem c) (evictions c) (goroutines c).

(** *** container/list, on element addresses *)

(** The element at address [id], when it is in the list. *)
Fixpoint elemAt (id : nat) (l : list Element) : option Element :=
  match l with
  | [] => None
  | e :: l' => if Nat.eqb (eid e) id then Some e else elemAt id l'
  end.

(** [l.Remove(e)] *)
Fixpoint Remove (id : nat) (l : list Element) : list Element :=
  match l with
  | [] => []
  | e :: l' => if Nat.eqb (eid e) id then l' else e :: Remove id l'
  end.

(** [l.MoveToBack(e)]: nothing happens when [e] is not in [l]. *)
Definition MoveToBack (id : nat) (l : list Element) : list Element :=
  match elemAt id l with
  | Some e => Remove id l ++ [e]
  | None => l
  end.

(** [e.Value = v] for the element at address [id]. *)
Fixpoint setValue (id : nat) (v : Any) (l : list Element) : list Element :=
  match l with
  | [] => []
  | e :: l' =>
      if Nat.eqb (eid e) id then mkElement id v :: l' else e :: setValue id v l'
  end.

(** *** The locks of [c.mu] *)

Definition onMu (f : RWMutex -> LockResult) : M LruCache unit :=
  fun c => match f (mu c) with
           | Acquired m => Ret tt (set_mu m c)
           | Refused flt => Crash flt c
           end.

Definition mu_Lock : M LruCache unit := onMu Lock.
Definition mu_Unlock : M LruCache unit := onMu Unlock.
Definition mu_RLock : M LruCache unit := onMu RLock.
Definition mu_RUnlock : M LruCache unit := onMu RUnlock.

(** [c.log.Error(...)]: a method of [*zap.Logger] reads the logger's
    fields first, so it panics on the nil logger. *)
Definition log_Error (line : LogLine) : M LruCache unit :=
  fun c => match log c with
           | None => Crash PanicNilDeref c
           | Some out => Ret tt (set_log (Some (out ++ [line])) c)
           end.

(** [elem.Value] through the pointer [elem]. The index map only holds
    addresses of elements of the list (see [WF] below); an address that
    leads nowhere is treated as the nil pointer. *)
Definition elemValue (id : nat) : M LruCache Any :=
  fun c => match elemAt id (list_ c) with
           | Some e => Ret (EValue e) c
           | None => Crash PanicNilDeref c
           end.

(** *** Construction *)

Definition withDefault (opt : Options) : Options :=
  let opt1 :=
    if CleanupInterval opt <=? 0
    then mkOptions (MaxBytes opt) (OnEvicted opt) Minute
    else opt in
  if MaxBytes opt1 <=? 0
  then mkOptions (8 * 1024 * 1024) (OnEvicted opt1) (CleanupInterval opt1)
  else opt1.

(** [NewLruCache]: [startCleanUpRoutine] creates the ticker and starts
    [cleanupLoop] in a goroutine of its own; its firings are the
    [Tick]s of [cleanupLoop] below. The [log] field is not assigned. *)
Definition NewLruCache (opt0 : Options) : LruCache :=
  let opt := withDefault opt0 in
  {| list_ := [];
     items := ∅;
     maxBytes := MaxBytes opt;
     currentBytes := 0;
     mu := unlocked;
     onEvicted := OnEvicted opt;
     expires := ∅;
     cleanupInterval := CleanupInterval opt;
     cleanTicker := Some (CleanupInterval opt);
     closeChan := false;
     log := None;
     nextElem := 0%nat;
     evictions := [];
     goroutines := [] |}.

(** *** Insertion and update *)

(** [add]: [entry] is a [*LruEntry], and what is pushed is [&entry], a
    [**LruEntry]. *)
Definition add (k : string) (v : Value) : M LruCache unit :=
  fun c =>
    let entry := mkLruEntry k v in
    let backElem := mkElement (nextElem c) (AnyPtrPtr entry) in
    Ret tt (set_items (<[k := eid backElem]> (items c))
             (set_list_ (list_ c ++ [backElem])
               (set_nextElem (S (nextElem c)) c))).

(** [update]: the assertion [elem.Value.( *LruEntry)] comes first. *)
Definition update (elem : nat) (v : Value) : M LruCache (option error) :=
  let* a := elemValue elem in
  match a with
  | AnyPtr entry =>
      let* c := get in
      let cbytes := wrap64 (currentBytes c + wrap64 (Len v - Len (value entry))) in
      if maxBytes c <? cbytes
      then ret (Some ErrUpdateCapacity)
      else
        modify (set_currentBytes
                  (wrap64 (currentBytes c + wrap64 (Len v - Len (value entry))))) ;;
        modify (fun c => set_list_
                  (setValue elem (AnyPtr (mkLruEntry (key entry) v)) (list_ c)) c) ;;
        modify (fun c => set_list_ (MoveToBack elem (list_ c)) c) ;;
        ret None
  | _ => crash PanicTypeAssertion
  end.

Definition createExpires (now : Time) (k : string) : M LruCache unit :=
  fun c =>
    let resultExp := now + cleanupInterval c in
    Ret tt (set_expires (<[k := resultExp]> (expires c)) c).

(** *** Removal *)

(** [removeCache]: the assertion [elem.Value.( *LruEntry)] comes first;
    the error it returns is always nil. *)
Definition removeCache (elem : nat) : M LruCache (option error) :=
  let* a := elemValue elem in
  match a with
  | AnyPtr entry =>
      modify (fun c => set_list_ (Remove elem (list_ c)) c) ;;
      modify (fun c => set_items (delete (key entry) (items c)) c) ;;
      modify (fun c => set_items (delete (key entry) (items c)) c) ;;
      modify (fun c => set_currentBytes
                (wrap64 (currentBytes c
                         - wrap64 (Z.of_nat (String.length (key entry))
                                   + Len (value entry)))) c) ;;
      let* c := get in
      (if onEvicted c
       then modify (set_evictions (evictions c ++ [(key entry, value entry)]))
       else ret tt) ;;
      ret None
  | _ => crash PanicTypeAssertion
  end.

(** *** The sweep *)

(** The first loop of [evict], over the pairs of [c.expires] in the order
    [range] yields them. *)
Fixpoint expiryPass (now : Time) (es : list (string * Z))
  : M LruCache (option error) :=
  match es with
  | [] => ret None
  | (i, j) :: es' =>
      if After now j
      then
        let* c := get in
        match items c !! i with
        | Some elem =>
            let* err := removeCache elem in
            match err with
            | Some e => log_Error (LogError e) ;; ret (Some (ErrEvictExpired e))
            | None => expiryPass now es'
            end
        | None => expiryPass now es'
        end
      else expiryPass now es'
  end.

(** The second loop of [evict]; [fuel] bounds its iterations. *)
Fixpoint capacityPass (fuel : nat) : M LruCache (option error) :=
  fun c =>
    if (maxBytes c <? currentBytes c) && (0 <? maxBytes c)
       && negb (Nat.eqb (length (list_ c)) 0)
    then
      match fuel with
      | O => Crash OutOfFuel c
      | S fuel' =>
          match head (list_ c) with
          | Some elem =>
              (let* err := removeCache (eid elem) in
               match err with
               | Some e => log_Error (LogError e) ;; ret (Some (ErrEvictCapacity e))
               | None => capacityPass fuel'
               end) c
          | None => capacityPass fuel' c
          end
      end
    else Ret None c.

(** [evict]; the caller holds the lock. Every iteration of the second
    loop that goes on has removed an element, so the length of the list
    bounds it. *)
Definition evict (now : Time) : M LruCache (option error) :=
  let* c := get in
  let* err := expiryPass now (map_to_list (expires c)) in
  match err with
  | Some e => ret (Some e)
  | None =>
      let* c := get in
      capacityPass (length (list_ c))
  end.

(** [AddAndUpdateCache]; [clk 0] is read by [createExpires] and [clk 1]
    by [evict]. *)
Definition AddAndUpdateCache (clk : Clock) (k : string) (v : option Value)
  : M LruCache (option error) :=
  match v with
  | None => ret None
  | Some v =>
      mu_Lock ;;
      defer mu_Unlock
        (let* c := get in
         match items c !! k with
         | Some elem =>
             let* err := update elem v in
             match err with
             | Some e =>
                 log_Error (LogError e) ;; ret (Some (ErrAddAndUpdateUpdate e))
             | None => ret None
             end
         | None =>
             add k v ;;
             modify (fun c => set_currentBytes
                       (wrap64 (currentBytes c
                                + wrap64 (Z.of_nat (String.length k) + Len v))) c) ;;
             createExpires (clk 0%nat) k ;;
             let* err := evict (clk 1%nat) in
             match err with
             | Some e =>
                 log_Error (LogError e) ;; ret (Some (ErrAddAndUpdateEvict e))
             | None => ret None
             end
         end)
  end.

Definition DeleteCache (k : string) : M LruCache (option error) :=
  mu_Lock ;;
  defer mu_Unlock
    (let* c := get in
     match items c !! k with
     | Some element =>
         let* err := removeCache element in
         match err with
         | Some e => log_Error LogDeleteFailed ;; ret (Some (ErrDeleteCache e))
         | None => ret None
         end
     | None => ret None
     end).

(** [FindCache]: [go func() { c.DeleteCache(key) }()] adds the key to
    [goroutines]; the assertion is [element.Value.(LruEntry)]; nothing is
    deferred. The result is [( *Value, bool)]. *)
Definition FindCache (now : Time) (k : string)
  : M LruCache (option Value * bool) :=
  mu_RLock ;;
  let* c := get in
  match items c !! k with
  | None => mu_RUnlock ;; ret (None, false)
  | Some element =>
      match expires c !! k with
      | Some t =>
          if After now t
          then mu_RUnlock ;;
               modify (fun c => set_goroutines (goroutines c ++ [k]) c)
          else ret tt
      | None => ret tt
      end ;;
      let* a := elemValue element in
      match a with
      | AnyEntry entry =>
          let value := value entry in
          mu_RUnlock ;;
          mu_Lock ;;
          let* c := get in
          match items c !! k with
          | Some _ => modify (fun c => set_list_ (MoveToBack element (list_ c)) c)
          | None => ret tt
          end ;;
          mu_Unlock ;;
          ret (Some value, true)
      | _ => crash PanicTypeAssertion
      end
  end.

(** [func (c *LruCache) Len() int] *)
Definition LruCache_Len : M LruCache Z :=
  mu_RLock ;;
  defer mu_RUnlock
    (let* c := get in ret (Z.of_nat (length (list_ c)))).

(** *** The Reaper *)

(** What the [select] of [cleanupLoop] receives. *)
Inductive Event : Type :=
| Tick (now : Time)     (* <-c.cleanTicker.C; [now] is what evict will read *)
| CloseSignal.          (* <-c.closeChan *)

(** How far the loop got on the events it was given. *)
Inductive LoopResult : Type :=
| LoopReturned (err : option error) (c : LruCache)
| LoopCrashed (f : Fault) (c : LruCache)
| LoopWaiting (c : LruCache).   (* still in the [for], at the [select] *)

(** The loop of [cleanupLoop] around a sweep. *)
Fixpoint cleanupLoopWith (sweep : Time -> M LruCache (option error))
    (evs : list Event) (c : LruCache) : LoopResult :=
  match evs with
  | [] => LoopWaiting c
  | CloseSignal :: _ => LoopReturned None c
  | Tick now :: evs' =>
      match mu_Lock c with
      | Crash f c1 => LoopCrashed f c1
      | Ret _ c1 =>
          match sweep now c1 with
          | Crash f c2 => LoopCrashed f c2
          | Ret (Some err) c2 =>
              match log_Error (LogError err) c2 with
              | Crash f c3 => LoopCrashed f c3
              | Ret _ c3 => LoopReturned (Some (ErrCleanupLoop err)) c3
              end
          | Ret None c2 =>
              match mu_Unlock c2 with
              | Crash f c3 => LoopCrashed f c3
              | Ret _ c3 => cleanupLoopWith sweep evs' c3
              end
          end
      end
  end.

(** [cleanupLoop]: the sweep is [c.evict()]. *)
Definition cleanupLoop : list Event -> LruCache -> LoopResult :=
  cleanupLoopWith evict.

(** One firing of the Reaper that the loop survives: lock, sweep,
    unlock. *)
Definition reaperTick (now : Time) : M LruCache unit :=
  fun c => match cleanupLoop [Tick now] c with
           | LoopWaiting c' => Ret tt c'
           | LoopCrashed f c' => Crash f c'
           | LoopReturned _ c' => Crash Blocked c'
           end.

(** [Close]: stops the ticker and closes [closeChan]; closing a closed
    channel panics. *)
Definition Close : M LruCache unit :=
  fun c => match cleanTicker c with
           | Some _ =>
               if closeChan c then Crash PanicCloseClosed c
               else Ret tt (set_closeChan true c)
           | None => Ret tt c
           end.

(** *** store.go: the interface and the factory *)

(** [type Store interface]. src/lru/store.go gives [FindCache] the
    result [(Value, bool)], the engine's method has [( *Value, bool)];
    both are an optional value here. *)
Class Store (S : Type) : Type := {
  Store_AddAndUpdateCache : Clock -> string -> option Value -> M S (option error);
  Store_DeleteCache : string -> M S (option error);
  Store_FindCache : Clock -> string -> M S (option Value * bool);
  Store_Close : M S unit
}.

#[export] Instance LruCache_Store : Store LruCache := {
  Store_AddAndUpdateCache := AddAndUpdateCache;
  Store_DeleteCache := DeleteCache;
  Store_FindCache := fun clk k => FindCache (clk 0%nat) k;
  Store_Close := Close
}.

(** A value of the interface type: an implementation and its state. *)
Record StoreObj : Type := mkStoreObj {
  store_type : Type;
  store_impl : Store store_type;
  store_state : store_type
}.

(** [type CacheType string] and [LRU] *)
Definition LRU : string := "lru".

Definition NewStore (cacheType : string) (opt : Options) : StoreObj :=
  if String.eqb cacheType LRU
  then mkStoreObj LruCache LruCache_Store (NewLruCache opt)
  else mkStoreObj LruCache LruCache_Store (NewLruCache opt).

End lru.

(** ** Package main: the facade (cache.go) *)

Module main.

Record CacheOptions : Type := mkCacheOptions {
  CacheType : string;
  MaxBytes : Z;
  OnEvicted : bool;
  CleanupInterval : Duration
}.

Inductive LogLine : Type :=
| LogInitDone                        (* c.log.Info: initialization complete *)
| LogAddFailed (e : lru.error)       (* c.log.Error in Add *)
| LogDeleteFailed (e : lru.error).   (* c.log.Error in Delete *)

(** [type Cache struct] *)
Record Cache : Type := mkCache {
  mu : RWMutex;
  store : option lru.StoreObj;       (* nil until the lazy initialization *)
  cacheOptions : CacheOptions;
  initialized : Z;                   (* int32 *)
  closed : Z;                        (* int32 *)
  hits : Z;                          (* int64 *)
  misses : Z;                        (* int64 *)
  log : option (list LogLine)        (* nil, or a logger and what it wrote *)
}.

Definition set_mu (m : RWMutex) (c : Cache) : Cache :=
  mkCache m (store c) (cacheOptions c) (initialized c) (closed c) (hits c)
    (misses c) (log c).
Definition set_store (s : option lru.StoreObj) (c : Cache) : Cache :=
  mkCache (mu c) s (cacheOptions c) (initialized c) (closed c) (hits c)
    (misses c) (log c).
Definition set_initialized (n : Z) (c : Cache) : Cache :=
  mkCache (mu c) (store c) (cacheOptions c) n (closed c) (hits c)
    (misses c) (log c).
Definition set_hits (n : Z) (c : Cache) : Cache :=
  mkCache (mu c) (store c) (cacheOptions c) (initialized c) (closed c) n
    (misses c) (log c).
Definition set_misses (n : Z) (c : Cache) : Cache :=
  mkCache (mu c) (store c) (cacheOptions c) (initialized c) (closed c) (hits c)
    n (log c).
Definition set_log (l : option (list LogLine)) (c : Cache) : Cache :=
  mkCache (mu c) (store c) (cacheOptions c) (initialized c) (closed c) (hits c)
    (misses c) l.

Definition DefaultCacheOptions : CacheOptions :=
  mkCacheOptions lru.LRU (8 * 1024 * 1024) false Minute.

(** [NewCache]: only [cacheOptions] is given; every other field has its
    zero value. *)
Definition NewCache (opt : CacheOptions) : Cache :=
  {| mu := unlocked;
     store := None;
     cacheOptions := opt;
     initialized := 0;
     closed := 0;
     hits := 0;
     misses := 0;
     log := None |}.

Definition onMu (f : RWMutex -> LockResult) : M Cache unit :=
  fun c => match f (mu c) with
           | Acquired m => Ret tt (set_mu m c)
           | Refused flt => Crash flt c
           end.

(** [c.log.Info(...)] and [c.log.Error(...)]: panics on the nil logger. *)
Definition log_write (line : LogLine) : M Cache unit :=
  fun c => match log c with
           | None => Crash PanicNilDeref c
           | Some out => Ret tt (set_log (Some (out ++ [line])) c)
           end.

(** A method call on [c.store]: a nil interface value panics; otherwise
    the method of the dynamic type runs on the store's state. *)
Definition onStore {A} (f : forall T, lru.Store T -> M T A) : M Cache A :=
  fun c => match store c with
           | None => Crash PanicNilDeref c
           | Some (lru.mkStoreObj T impl st) =>
               match f T impl st with
               | Ret a st' => Ret a (set_store (Some (lru.mkStoreObj T impl st')) c)
               | Crash flt st' =>
                   Crash flt (set_store (Some (lru.mkStoreObj T impl st')) c)
               end
           end.

Definition ensureInitialized : M Cache unit :=
  let* c := get in
  if initialized c =? 1 then ret tt
  else
    let Options :=
      lru.mkOptions (MaxBytes (cacheOptions c)) (OnEvicted (cacheOptions c))
        (CleanupInterval (cacheOptions c)) in
    let cache := lru.NewStore (CacheType (cacheOptions c)) Options in
    modify (set_store (Some cache)) ;;
    modify (fun c => set_initialized (wrap32 (initialized c + 1)) c) ;;
    log_write LogInitDone.

(** [Add]; the [ByteView] becomes a non-nil [lru.Value]. *)
Definition Add (clk : Clock) (k : string) (v : lru.ByteView) : M Cache unit :=
  let* c := get in
  (if initialized c =? 0 then ensureInitialized else ret tt) ;;
  let* err := onStore (fun T impl =>
                lru.Store_AddAndUpdateCache clk k (Some (lru.ValByteView v))) in
  match err with
  | Some e => log_write (LogAddFailed e)
  | None => ret tt
  end.

Definition Delete (k : string) : M Cache unit :=
  let* c := get in
  if (closed c =? 1) || (initialized c =? 0) then ret tt
  else
    let* err := onStore (fun T impl => lru.Store_DeleteCache k) in
    match err with
    | Some e => log_write (LogDeleteFailed e)
    | None => ret tt
    end.

(** [Get]; [ByteView{}] is the view of no bytes. *)
Definition Get (clk : Clock) (k : string) : M Cache (lru.ByteView * bool) :=
  let* c := get in
  if closed c =? 1 then ret (lru.mkByteView [], false)
  else if initialized c =? 0
  then modify (fun c => set_misses (wrap64 (misses c + 1)) c) ;;
       ret (lru.mkByteView [], false)
  else
    onMu RLock ;;
    defer (onMu RUnlock)
      (let* r := onStore (fun T impl => lru.Store_FindCache clk k) in
       if negb (snd r)
       then modify (fun c => set_misses (wrap64 (misses c + 1)) c) ;;
            ret (lru.mkByteView [], false)
       else
         modify (fun c => set_hits (wrap64 (hits c + 1)) c) ;;
         match fst r with
         | Some (lru.ValByteView bv) => ret (bv, true)
         | _ =>
             modify (fun c => set_misses (wrap64 (misses c + 1)) c) ;;
             ret (lru.mkByteView [], false)
         end).

End main.

(** ** Histories of the engine *)

Import lru.

Arguments update elem v : simpl never.
Arguments removeCache elem : simpl never.
Arguments evict now : simpl never.
Arguments elemValue id : simpl never.
Arguments log_Error line : simpl never.
Arguments mu_Lock : simpl never.
Arguments mu_Unlock : simpl never.
Arguments mu_RLock : simpl never.
Arguments mu_RUnlock : simpl never.
Arguments AddAndUpdateCache clk k v : simpl never.
Arguments DeleteCache k : simpl never.
Arguments FindCache now k : simpl never.

(** The operations a caller, or the Reaper, runs on the engine. *)
Inductive Op : Type :=
| OpAddAndUpdate (clk : Clock) (k : string) (v : option Value)
| OpDelete (k : string)
| OpFind (now : Time) (k : string)
| OpSweep (now : Time).

Definition run (op : Op) : M LruCache unit :=
  match op with
  | OpAddAndUpdate clk k v => AddAndUpdateCache clk k v ;; ret tt
  | OpDelete k => DeleteCache k ;; ret tt
  | OpFind now k => FindCache now k ;; ret tt
  | OpSweep now => reaperTick now
  end.

(** The states the engine is in between operations, when every operation
    so far has returned to its caller. *)
Inductive reachable : LruCache -> Prop :=
| reachable_new (opt : Options) : reachable (NewLruCache opt)
| reachable_run (c c' : LruCache) (op : Op) :
    reachable c -> run op c = Ret tt c' -> reachable c'.

(** Every node of the list holds what [add] pushes: a [**LruEntry]. *)
Definition stored_as_added (c : LruCache) : Prop :=
  Forall (fun e => exists en, EValue e = AnyPtrPtr en) (list_ c).

(** The key of the entry a node holds or leads to. *)
Definition keyOf (e : Element) : string := key (entryOf (EValue e)).

(** The keys of the Index Map and of the Recency Sequence. *)
Definition indexKeys (c : LruCache) : gset string := dom (items c).
Definition sequenceKeys (c : LruCache) : gset string :=
  list_to_set (keyOf <$> list_ c).

(** The list as the index map sees it: the address of each element and
    the key it carries, head first. *)
Definition nodes (l : list Element) : list (nat * string) :=
  (fun e => (eid e, keyOf e)) <$> l.

(** The index map and the list describe each other: element addresses
    are not repeated and are below the next free one, and a key is mapped
    to an address exactly when the element at that address is in the list
    and carries that key. *)
Record WF (c : LruCache) : Prop := mkWF {
  wf_ids : NoDup (nodes (list_ c)).*1;
  wf_fresh : forall id k, (id, k) ∈ nodes (list_ c) -> (id < nextElem c)%nat;
  wf_index : forall k id, items c !! k = Some id <-> (id, k) ∈ nodes (list_ c)
}.

(** What holds of the engine between operations that returned. *)
Record Quiet (c : LruCache) : Prop := mkQuiet {
  q_mu : lru.mu c = unlocked;
  q_added : stored_as_added c;
  q_max : 0 < maxBytes c;
  q_budget : currentBytes c <= maxBytes c
}.

(** [hoare P m Q]: when [m] starts where [P] holds and returns, [Q] holds
    of its result and of the state it leaves. *)
Definition hoare {A} (P : LruCache -> Prop) (m : M LruCache A)
    (Q : A -> LruCache -> Prop) : Prop :=
  forall c, P c -> forall a c', m c = Ret a c' -> Q a c'.

(** The loop condition of the capacity pass. *)
Definition overBudget (c : LruCache) : bool :=
  (maxBytes c <? currentBytes c) && (0 <? maxBytes c)
  && negb (Nat.eqb (length (list_ c)) 0).

(** ** Engines and facades to run the code on *)

(** A clock that reads [t] every time. *)
Definition clockAt (t : Z) : Clock := fun _ => t.

(** A value whose [Len()] is [n]. *)
Definition sized (n : Z) : Value := ValOther 0 n.

(** Capacity 20 bytes, an eviction callback, sweeps and expiry after 50ns. *)
Definition opts20 : Options := mkOptions 20 true 50.

(** A new engine after [AddAndUpdateCache("K", v)] with [v.Len() = 10] at
    time 0: one entry of 11 bytes that expires at 50. *)
Definition engineK : LruCache :=
  stateOf (AddAndUpdateCache (clockAt 0) "K" (Some (sized 10)) (NewLruCache opts20)).

(** ... and after [AddAndUpdateCache("u", w)] with [w.Len() = 4]: 16 bytes
    of 20 are in use. *)
Definition engineKU : LruCache :=
  stateOf (AddAndUpdateCache (clockAt 0) "u" (Some (sized 4)) engineK).

(** The engine [c] had [add] pushed [entry], the [*LruEntry] that [update]
    and [removeCache] assert, and had it pushed an [LruEntry], which
    [FindCache] asserts. *)
Definition pushedAs (f : LruEntry -> Any) (c : LruCache) : LruCache :=
  set_list_ ((fun e => mkElement (eid e) (f (entryOf (EValue e)))) <$> list_ c) c.


(** An implementation of [Store] that answers every [FindCache] with the
    pair it holds. *)
#[export] Instance AnswerStore : Store (option Value * bool) := {
  Store_AddAndUpdateCache := fun _ _ _ => ret None;
  Store_DeleteCache := fun _ => ret None;
  Store_FindCache := fun _ _ => get;
  Store_Close := ret tt
}.

(** An initialized, open facade over such a store. *)
Definition facadeOver (answer : option Value * bool) : main.Cache :=
  main.mkCache unlocked (Some (mkStoreObj _ AnswerStore answer))
    main.DefaultCacheOptions 1 0 0 0 None.

(** ** What an insertion leaves, and what the entries weigh *)

(** The engine after the insertion of an absent key [k] with value [v],
    when [createExpires] reads the time [now] and the sweep finds nothing to
    remove. *)
Definition inserted (now : Time) (k : string) (v : Value) (c : LruCache)
  : LruCache :=
  set_expires (<[k := now + cleanupInterval c]> (expires c))
    (set_currentBytes
       (wrap64 (currentBytes c + wrap64 (Z.of_nat (String.length k) + Len v)))
       (set_items (<[k := nextElem c]> (items c))
          (set_list_ (list_ c ++ [mkElement (nextElem c) (AnyPtrPtr (mkLruEntry k v))])
             (set_nextElem (S (nextElem c)) c)))).

(** No key of the index map has an expiry instant before [now]. *)
Definition noneExpired (now : Time) (c : LruCache) : Prop :=
  forall i j, expires c !! i = Some j -> After now j = true -> items c !! i = None.

(** The same, decided by running through the expiry map. *)
Definition noneExpiredb (now : Time) (c : LruCache) : bool :=
  forallb (fun ij => negb (After now ij.2) || bool_decide (items c !! ij.1 = None))
          (map_to_list (expires c)).

(** [engineKU] with the [*LruEntry] pushed and a logger that has written
    nothing yet. *)
Definition engineLogged : LruCache :=
  lru.set_log (Some []) (pushedAs AnyPtr engineKU).

(** [engineLogged] after the update of K to 20 bytes was refused. *)
Definition engineRefused : LruCache :=
  stateOf (AddAndUpdateCache (clockAt 1) "K" (Some (sized 20)) engineLogged).

(** [int64(len(entry.key) + entry.value.Len())], what [AddAndUpdateCache]
    adds for an entry and [removeCache] subtracts. *)
Definition entryBytes (e : LruEntry) : Z :=
  wrap64 (Z.of_nat (String.length (key e)) + Len (value e)).

(** The bytes of the entries of a list. *)
Definition totalBytes (l : list Element) : Z :=
  foldr (fun e acc => entryBytes (entryOf (EValue e)) + acc) 0 l.

(** The engine after [removeCache] has removed the element at [id], which
    holds a pointer to the entry [en]. *)
Definition removed (id : nat) (en : LruEntry) (c : LruCache) : LruCache :=
  set_evictions
    (if onEvicted c then evictions c ++ [(key en, value en)] else evictions c)
    (set_currentBytes (wrap64 (currentBytes c - entryBytes en))
       (set_items (delete (key en) (items c))
          (set_list_ (Remove id (list_ c)) c))).

(** The engine after [update] has given the value [v] to the element at
    [id], which holds a pointer to the entry [en]. *)
Definition updated (id : nat) (en : LruEntry) (v : Value) (c : LruCache)
  : LruCache :=
  set_list_ (Remove id (list_ c) ++ [mkElement id (AnyPtr (mkLruEntry (key en) v))])
    (set_currentBytes
       (wrap64 (currentBytes c + wrap64 (Len v - Len (value en)))) c).

(** An initialized, open facade whose store is the engine [e]. *)
Definition facadeOnEngine (e : LruCache) : main.Cache :=
  main.mkCache unlocked (Some (mkStoreObj LruCache LruCache_Store e))
    main.DefaultCacheOptions 1 0 0 0 None.

(** The byte counter is the bytes of the entries, up to the wrap-around of
    [int64]. *)
Definition Accounted (c : LruCache) : Prop :=
  (2 ^ 64 | currentBytes c - totalBytes (list_ c)).

(** ** The sweep on a list as [add] fills it *)

Section AsAdded.

Variable c : LruCache.
Hypothesis Hadded : stored_as_added c.

Lemma elemAt_in (id : nat) (l : list Element) (e : Element) :
  elemAt id l = Some e -> e ∈ l /\ eid e = id.
Proof.
  induction l as [|x l IH]; simpl; [discriminate|].
  destruct (Nat.eqb (eid x) id) eqn:E.
  - intros [= <-]. apply Nat.eqb_eq in E. split; [left | done].
  - intros H. destruct (IH H) as [Hin Hid]. split; [by right | done].
Qed.

Lemma removeCache_as_added (id : nat) :
  exists f, removeCache id c = Crash f c /\ is_panic f = true.
Proof.
  unfold removeCache, elemValue. cbn [bind].
  destruct (elemAt id (list_ c)) as [e|] eqn:E.
  - apply elemAt_in in E as [Hin _].
    unfold stored_as_added in Hadded. rewrite Forall_forall in Hadded.
    destruct (Hadded e Hin) as [en ->]. by exists PanicTypeAssertion.
  - by exists PanicNilDeref.
Qed.

Lemma update_as_added (id : nat) (v : Value) :
  exists f, update id v c = Crash f c /\ is_panic f = true.
Proof.
  unfold update, elemValue. cbn [bind].
  destruct (elemAt id (list_ c)) as [e|] eqn:E.
  - apply elemAt_in in E as [Hin _].
    unfold stored_as_added in Hadded. rewrite Forall_forall in Hadded.
    destruct (Hadded e Hin) as [en ->]. by exists PanicTypeAssertion.
  - by exists PanicNilDeref.
Qed.

Lemma expiryPass_as_added (now : Time) (es : list (string * Z)) :
  expiryPass now es c = Ret None c \/
  exists f, expiryPass now es c = Crash f c /\ is_panic f = true.
Proof.
  induction es as [|[i j] es IH]; simpl; [by left|].
  destruct (After now j); [|exact IH]. simpl.
  destruct (items c !! i) as [id|]; [|exact IH].
  right. destruct (removeCache_as_added id) as (f & Hf & Hp).
  exists f. simpl. by rewrite Hf.
Qed.

Lemma capacityPass_as_added (fuel : nat) :
  fuel = length (list_ c) ->
  (capacityPass fuel c = Ret None c /\ overBudget c = false) \/
  (exists f, capacityPass fuel c = Crash f c /\ is_panic f = true).
Proof.
  intros Hfuel. destruct fuel as [|fuel]; simpl; fold (overBudget c).
  - destruct (overBudget c) eqn:Hb; [|by left].
    unfold overBudget in Hb. rewrite <- Hfuel in Hb. simpl in Hb.
    by rewrite andb_false_r in Hb.
  - destruct (overBudget c) eqn:Hb; [|by left].
    right. destruct (list_ c) as [|e l] eqn:El; [discriminate|]. simpl.
    destruct (removeCache_as_added (eid e)) as (f & Hf & Hp).
    exists f. by rewrite Hf.
Qed.

Lemma evict_as_added (now : Time) :
  (evict now c = Ret None c /\ overBudget c = false) \/
  (exists f, evict now c = Crash f c /\ is_panic f = true).
Proof.
  unfold evict. simpl.
  destruct (expiryPass_as_added now (map_to_list (expires c)))
    as [Hr | (f & Hf & Hp)].
  - rewrite Hr. simpl.
    destruct (capacityPass_as_added (length (list_ c)) eq_refl)
      as [[Hc Hb] | (f & Hf & Hp)].
    + left. by rewrite Hc.
    + right. exists f. by rewrite Hf.
  - right. exists f. by rewrite Hf.
Qed.

End AsAdded.

(** ** The byte budget between operations *)

Lemma withDefault_MaxBytes (opt : Options) :
  MaxBytes (withDefault opt) =
  if MaxBytes opt <=? 0 then 8 * 1024 * 1024 else MaxBytes opt.
Proof.
  unfold withDefault.
  destruct (CleanupInterval opt <=? 0); simpl;
    destruct (MaxBytes opt <=? 0); reflexivity.
Qed.

Lemma withDefault_MaxBytes_pos (opt : Options) : 0 < MaxBytes (withDefault opt).
Proof.
  rewrite withDefault_MaxBytes.
  destruct (MaxBytes opt <=? 0) eqn:E; [reflexivity | lia].
Qed.

Lemma withDefault_CleanupInterval_pos (opt : Options) :
  0 < CleanupInterval (withDefault opt).
Proof.
  unfold withDefault.
  destruct (CleanupInterval opt <=? 0) eqn:E; simpl;
    destruct (MaxBytes opt <=? 0); simpl; unfold Minute; lia.
Qed.

Lemma Quiet_new (opt : Options) : Quiet (NewLruCache opt).
Proof.
  split; simpl.
  - reflexivity.
  - constructor.
  - apply withDefault_MaxBytes_pos.
  - pose proof (withDefault_MaxBytes_pos opt). lia.
Qed.

Lemma onMu_ret (f : RWMutex -> LockResult) (c c' : LruCache) (u : unit) :
  lru.onMu f c = Ret u c' -> exists m, f (mu c) = Acquired m /\ c' = set_mu m c.
Proof.
  unfold lru.onMu. destruct (f (mu c)) as [m|]; [|discriminate].
  intros [= _ <-]. by exists m.
Qed.

Lemma set_mu_id (m : RWMutex) (c : LruCache) : lru.mu c = m -> set_mu m c = c.
Proof. intros <-. by destruct c. Qed.

(** A writer's critical section on the unlocked mutex. *)
Lemma mu_Lock_unlocked (c : LruCache) :
  lru.mu c = unlocked -> mu_Lock c = Ret tt (set_mu (mkRWMutex true 0) c).
Proof. intros H. unfold mu_Lock, lru.onMu. by rewrite H. Qed.

Lemma mu_Unlock_locked (c : LruCache) :
  mu_Unlock (set_mu (mkRWMutex true 0) c) = Ret tt (set_mu unlocked c).
Proof. reflexivity. Qed.

Lemma mu_RLock_unlocked (c : LruCache) :
  lru.mu c = unlocked -> mu_RLock c = Ret tt (set_mu (mkRWMutex false 1) c).
Proof. intros H. unfold mu_RLock, lru.onMu. by rewrite H. Qed.

Lemma mu_RUnlock_read (c : LruCache) :
  mu_RUnlock (set_mu (mkRWMutex false 1) c) = Ret tt (set_mu unlocked c).
Proof. reflexivity. Qed.

Lemma AddAndUpdateCache_Quiet (clk : Clock) (k : string) (v : option Value)
    (c c' : LruCache) (r : option error) :
  Quiet c -> AddAndUpdateCache clk k v c = Ret r c' ->
  Quiet c' /\ r = None /\ (v = None \/ items c !! k = None).
Proof.
  intros [Hmu Ha Hm Hb]. unfold AddAndUpdateCache.
  destruct v as [v|]; simpl; [|intros [= <- <-]; split; [done | by auto]].
  rewrite (mu_Lock_unlocked c Hmu). unfold defer. simpl.
  destruct (items c !! k) as [id|].
  - cbn [bind].
    destruct (update_as_added (set_mu (mkRWMutex true 0) c) Ha id v) as (f & -> & Hp).
    simpl. by rewrite Hp.
  - simpl. match goal with |- context [evict ?t ?s] =>
      destruct (evict_as_added s) with (now := t) as [[-> Hover] | (f & -> & Hp)]
    end.
    + unfold stored_as_added. simpl. apply Forall_app. split; [exact Ha|].
      constructor; [by eexists | constructor].
    + simpl. intros [= <- <-]. split; [|by auto].
      split; simpl.
      * reflexivity.
      * unfold stored_as_added. simpl. apply Forall_app. split; [exact Ha|].
        constructor; [by eexists | constructor].
      * exact Hm.
      * unfold overBudget in Hover. simpl in Hover.
        rewrite length_app in Hover. simpl in Hover.
        replace (length (list_ c) + 1)%nat with (S (length (list_ c))) in Hover by lia.
        simpl in Hover. rewrite andb_true_r in Hover.
        apply andb_false_iff in Hover as [H|H]; [apply Z.ltb_ge in H; lia|].
        apply Z.ltb_ge in H. lia.
    + simpl. by rewrite Hp.
Qed.

(** On a list as [add] fills it, the operations that return without having
    inserted leave the engine as it was. *)
Lemma DeleteCache_as_added (k : string) (c c' : LruCache) (r : option error) :
  stored_as_added c -> lru.mu c = unlocked -> DeleteCache k c = Ret r c' ->
  items c !! k = None /\ r = None /\ c' = c.
Proof.
  intros Ha Hmu. unfold DeleteCache. cbn [bind].
  rewrite (mu_Lock_unlocked c Hmu). unfold defer. simpl.
  destruct (items c !! k) as [id|].
  - cbn [bind].
    destruct (removeCache_as_added (set_mu (mkRWMutex true 0) c) Ha id) as (f & -> & Hp).
    by rewrite Hp.
  - simpl. intros [= <- <-]. split; [done|]. split; [done|]. exact (set_mu_id unlocked c Hmu).
Qed.

Lemma FindCache_as_added (now : Time) (k : string) (c c' : LruCache)
    (r : option Value * bool) :
  stored_as_added c -> lru.mu c = unlocked -> FindCache now k c = Ret r c' ->
  items c !! k = None /\ r = (None, false) /\ c' = c.
Proof.
  intros Ha Hmu. unfold FindCache. cbn [bind].
  rewrite (mu_RLock_unlocked c Hmu). simpl.
  destruct (items c !! k) as [id|].
  - cbn [bind].
    assert (Hcrash : forall s, list_ s = list_ c ->
              elemValue id s = Crash PanicNilDeref s \/
              exists en, elemValue id s = Ret (AnyPtrPtr en) s).
    { intros s Hs. unfold elemValue. rewrite Hs.
      destruct (elemAt id (list_ c)) as [e|] eqn:E.
      - apply elemAt_in in E as [Hin _].
        unfold stored_as_added in Ha. rewrite Forall_forall in Ha.
        destruct (Ha e Hin) as [en ->]. right. by exists en.
      - by left. }
    destruct (expires c !! k) as [t|]; [destruct (After now t)|]; simpl;
      rewrite ?mu_RUnlock_read; simpl;
      match goal with |- context [elemValue id ?s] =>
        destruct (Hcrash s eq_refl) as [E | (en & E)]; rewrite E end;
      discriminate.
  - simpl. intros [= <- <-]. split; [done|]. split; [done|]. exact (set_mu_id unlocked c Hmu).
Qed.

Lemma reaperTick_as_added (now : Time) (c c' : LruCache) :
  stored_as_added c -> lru.mu c = unlocked -> reaperTick now c = Ret tt c' ->
  overBudget c = false /\ c' = c.
Proof.
  intros Ha Hmu. unfold reaperTick, cleanupLoop. simpl.
  rewrite (mu_Lock_unlocked c Hmu).
  destruct (evict_as_added (set_mu (mkRWMutex true 0) c) Ha now)
    as [[-> Hover] | (f & -> & Hp)]; [|discriminate].
  simpl. intros [= <-]. split; [done|]. exact (set_mu_id unlocked c Hmu).
Qed.

Lemma run_Quiet (op : Op) (c c' : LruCache) :
  Quiet c -> run op c = Ret tt c' -> Quiet c'.
Proof.
  intros HQ. destruct op as [clk k v|k|now k|now]; simpl.
  - destruct (AddAndUpdateCache clk k v c) as [r c1|] eqn:E; [|discriminate].
    intros [= <-]. by apply (AddAndUpdateCache_Quiet _ _ _ _ _ _ HQ) in E as [? _].
  - destruct (DeleteCache k c) as [r c1|] eqn:E; [|discriminate].
    intros [= <-]. destruct HQ as [Hmu Ha ? ?].
    by apply DeleteCache_as_added in E as (_ & _ & ->).
  - destruct (FindCache now k c) as [r c1|] eqn:E; [|discriminate].
    intros [= <-]. destruct HQ as [Hmu Ha ? ?].
    by apply FindCache_as_added in E as (_ & _ & ->).
  - intros E. destruct HQ as [Hmu Ha ? ?].
    by apply reaperTick_as_added in E as (_ & ->).
Qed.

Lemma reachable_Quiet (c : LruCache) : reachable c -> Quiet c.
Proof.
  induction 1 as [opt | c c' op _ IH Hrun].
  - apply Quiet_new.
  - eapply run_Quiet; eauto.
Qed.

(** ** The index map and the list *)

Lemma WF_new (opt : Options) : WF (NewLruCache opt).
Proof.
  split; simpl.
  - constructor.
  - intros id k H. by apply elem_of_nil in H.
  - intros k id. rewrite lookup_empty. split; [discriminate|].
    intros H. by apply elem_of_nil in H.
Qed.

Lemma WF_perm (c c' : LruCache) :
  nodes (list_ c') ≡ₚ nodes (list_ c) -> items c' = items c ->
  nextElem c' = nextElem c -> WF c -> WF c'.
Proof.
  intros Hp Hi Hn [H1 H2 H3]. split.
  - by rewrite Hp.
  - intros id k. rewrite Hp, Hn. apply H2.
  - intros k id. rewrite Hp, Hi. apply H3.
Qed.

Lemma WF_insert (c c' : LruCache) (k : string) :
  items c !! k = None ->
  nodes (list_ c') = nodes (list_ c) ++ [(nextElem c, k)] ->
  items c' = <[k := nextElem c]> (items c) ->
  nextElem c' = S (nextElem c) -> WF c -> WF c'.
Proof.
  intros Hk Hl Hi Hn [H1 H2 H3]. split.
  - rewrite Hl, fmap_app. simpl. apply NoDup_app. split; [exact H1|].
    split; [|apply NoDup_singleton].
    intros id Hin Hin'. apply list_elem_of_singleton in Hin'. subst id.
    apply list_elem_of_fmap in Hin as [[id k'] [Hid Hin]]. simpl in Hid. subst id.
    apply H2 in Hin. lia.
  - intros id k'. rewrite Hl, Hn, elem_of_app, list_elem_of_singleton.
    intros [Hin | [= -> ->]]; [apply H2 in Hin|]; lia.
  - intros k' id. rewrite Hl, Hi, elem_of_app, list_elem_of_singleton.
    destruct (decide (k = k')) as [<-|Hne].
    + rewrite lookup_insert_eq. split.
      * intros [= <-]. by right.
      * intros [Hin | [= ->]]; [|done].
        apply H3 in Hin. congruence.
    + rewrite lookup_insert_ne by done. rewrite H3. split; [by left|].
      intros [Hin | [= _ ->]]; done.
Qed.

Lemma WF_remove (c c' : LruCache) (id : nat) (k : string) :
  nodes (list_ c) ≡ₚ (id, k) :: nodes (list_ c') ->
  items c' = delete k (items c) ->
  nextElem c' = nextElem c -> WF c -> WF c'.
Proof.
  intros Hl Hi Hn [H1 H2 H3].
  rewrite Hl in H1. simpl in H1. apply NoDup_cons in H1 as [Hid H1].
  assert (Hk : forall id', (id', k) ∈ nodes (list_ c') -> False).
  { intros id' Hin.
    assert (items c !! k = Some id') as E1
      by (apply H3; rewrite Hl; by right).
    assert (items c !! k = Some id) as E2
      by (apply H3; rewrite Hl; by left).
    assert (id' = id) by congruence. subst id'.
    apply Hid. apply list_elem_of_fmap. by exists (id, k). }
  split.
  - exact H1.
  - intros id' k' Hin. rewrite Hn. apply (H2 id' k'). rewrite Hl. by right.
  - intros k' id'. rewrite Hi. destruct (decide (k = k')) as [<-|Hne].
    + rewrite lookup_delete_eq. split; [discriminate|].
      intros Hin. destruct (Hk _ Hin).
    + rewrite lookup_delete_ne by done. rewrite H3, Hl, elem_of_cons.
      split; [|by right]. intros [[= _ ->] | Hin]; done.
Qed.

Lemma nodes_Remove (id : nat) (l : list Element) (e : Element) :
  elemAt id l = Some e -> nodes l ≡ₚ (id, keyOf e) :: nodes (Remove id l).
Proof.
  induction l as [|x l IH]; simpl; [discriminate|].
  destruct (Nat.eqb (eid x) id) eqn:E.
  - intros [= <-]. apply Nat.eqb_eq in E. by rewrite E.
  - intros H. simpl. rewrite (IH H). apply Permutation_swap.
Qed.

Lemma nodes_MoveToBack (id : nat) (l : list Element) :
  nodes (MoveToBack id l) ≡ₚ nodes l.
Proof.
  unfold MoveToBack. destruct (elemAt id l) as [e|] eqn:E; [|done].
  unfold nodes at 1. rewrite fmap_app. simpl. fold (nodes (Remove id l)).
  rewrite (nodes_Remove id l e E).
  by rewrite <- Permutation_cons_append, (proj2 (elemAt_in id l e E)).
Qed.

Lemma nodes_setValue (id : nat) (a : Any) (l : list Element) (e : Element) :
  elemAt id l = Some e -> key (entryOf a) = keyOf e ->
  nodes (setValue id a l) = nodes l.
Proof.
  intros He Hk. induction l as [|x l IH]; simpl in *; [done|].
  destruct (Nat.eqb (eid x) id) eqn:E.
  - injection He as ->. apply Nat.eqb_eq in E. simpl.
    unfold keyOf at 1. simpl. by rewrite Hk, E.
  - simpl. by rewrite (IH He).
Qed.

(** *** Rules for [hoare] *)

Lemma hoare_ret {A} (P : LruCache -> Prop) (a : A) (Q : A -> LruCache -> Prop) :
  (forall c, P c -> Q a c) -> hoare P (ret a) Q.
Proof. intros H c HP a' c' [= <- <-]. by apply H. Qed.

Lemma hoare_crash {A} (P : LruCache -> Prop) (f : Fault)
    (Q : A -> LruCache -> Prop) :
  hoare P (crash f) Q.
Proof. intros c HP a c'. discriminate. Qed.

Lemma hoare_bind {A B} (P : LruCache -> Prop) (R : A -> LruCache -> Prop)
    (Q : B -> LruCache -> Prop) (m : M LruCache A) (k : A -> M LruCache B) :
  hoare P m R -> (forall a, hoare (R a) (k a) Q) -> hoare P (bind m k) Q.
Proof.
  intros Hm Hk c HP b c'. simpl.
  destruct (m c) as [a c1|] eqn:E; [|discriminate].
  apply (Hk a c1). by apply (Hm c HP).
Qed.

Lemma hoare_get (P : LruCache -> Prop) :
  hoare P get (fun a c => a = c /\ P c).
Proof. intros c HP a c' [= <- <-]. done. Qed.

Lemma hoare_modify (P : LruCache -> Prop) (g : LruCache -> LruCache)
    (Q : unit -> LruCache -> Prop) :
  (forall c, P c -> Q tt (g c)) -> hoare P (modify g) Q.
Proof. intros H c HP a c' [= <- <-]. by apply H. Qed.

Lemma hoare_defer {A} (P : LruCache -> Prop) (R Q : A -> LruCache -> Prop)
    (d : M LruCache unit) (body : M LruCache A) :
  hoare P body R -> (forall a, hoare (R a) d (fun _ => Q a)) ->
  hoare P (defer d body) Q.
Proof.
  intros Hb Hd c HP a c'. unfold defer.
  destruct (body c) as [a1 c1|f c1] eqn:E.
  - destruct (d c1) as [u c2|] eqn:E2; [|discriminate].
    intros [= <- <-]. apply (Hd a1 c1 (Hb c HP a1 c1 E) u c2 E2).
  - destruct (is_panic f); [|discriminate]. by destruct (d c1).
Qed.

Lemma hoare_weaken {A} (P P' : LruCache -> Prop) (Q Q' : A -> LruCache -> Prop)
    (m : M LruCache A) :
  hoare P' m Q' -> (forall c, P c -> P' c) -> (forall a c, Q' a c -> Q a c) ->
  hoare P m Q.
Proof. intros H HP HQ c Hc a c' E. apply HQ. apply (H c (HP c Hc) a c' E). Qed.

(** *** Each step of the engine keeps [WF] *)

Lemma WF_same (c c' : LruCache) :
  list_ c' = list_ c -> items c' = items c -> nextElem c' = nextElem c ->
  WF c -> WF c'.
Proof. intros Hl Hi Hn. apply WF_perm; [by rewrite Hl | done | done]. Qed.

Lemma onMu_WF (f : RWMutex -> LockResult) :
  hoare WF (lru.onMu f) (fun _ => WF).
Proof.
  intros c HW [] c' E. apply onMu_ret in E as (m & _ & ->).
  by apply (WF_same c).
Qed.

Lemma log_Error_WF (line : lru.LogLine) : hoare WF (log_Error line) (fun _ => WF).
Proof.
  intros c HW [] c'. unfold log_Error. destruct (log c); [|discriminate].
  intros [= <-]. by apply (WF_same c).
Qed.

Lemma add_WF (k : string) (v : Value) :
  hoare (fun c => WF c /\ items c !! k = None) (add k v) (fun _ => WF).
Proof.
  intros c [HW Hk] [] c'. unfold add. intros [= <-].
  apply (WF_insert c _ k); simpl; try done.
  unfold nodes. by rewrite fmap_app.
Qed.

Lemma createExpires_WF (now : Time) (k : string) :
  hoare WF (createExpires now k) (fun _ => WF).
Proof. intros c HW [] c'. unfold createExpires. intros [= <-]. by apply (WF_same c). Qed.

Lemma update_WF (id : nat) (v : Value) : hoare WF (update id v) (fun _ => WF).
Proof.
  intros c HW r c'. unfold update, elemValue. cbn [bind].
  destruct (elemAt id (list_ c)) as [e|] eqn:E; [|discriminate].
  destruct (EValue e) as [en|en|en] eqn:Ee; try discriminate. simpl.
  destruct (maxBytes c <? _); simpl; intros [= <- <-]; [done|].
  apply (WF_perm c); simpl; try done.
  rewrite nodes_MoveToBack.
  rewrite (nodes_setValue id _ (list_ c) e E); [done|].
  unfold keyOf. by rewrite Ee.
Qed.

Lemma removeCache_WF (id : nat) : hoare WF (removeCache id) (fun _ => WF).
Proof.
  intros c HW r c'. unfold removeCache, elemValue. cbn [bind].
  destruct (elemAt id (list_ c)) as [e|] eqn:E; [|discriminate].
  destruct (EValue e) as [en|en|en] eqn:Ee; try discriminate. simpl.
  assert (Hk : keyOf e = key en) by (unfold keyOf; by rewrite Ee).
  destruct (onEvicted c); simpl; intros [= <- <-].
  all: apply (WF_remove c _ id (key en)); simpl; try done.
  all: try (rewrite <- Hk; by apply nodes_Remove).
  all: by rewrite delete_delete_eq.
Qed.

Lemma expiryPass_WF (now : Time) (es : list (string * Z)) :
  hoare WF (expiryPass now es) (fun _ => WF).
Proof.
  induction es as [|[i j] es IH]; simpl.
  - by apply hoare_ret.
  - destruct (After now j); [|exact IH].
    eapply hoare_bind; [apply hoare_get|]. intros c0.
    destruct (items c0 !! i) as [id|].
    + eapply hoare_bind.
      * eapply hoare_weaken; [apply (removeCache_WF id) | by intros c [] | done].
      * intros [e|]; [|exact IH].
        eapply hoare_bind; [apply log_Error_WF|]. intros ?. by apply hoare_ret.
    + eapply hoare_weaken; [exact IH | by intros c [] | done].
Qed.

Lemma capacityPass_WF (fuel : nat) : hoare WF (capacityPass fuel) (fun _ => WF).
Proof.
  induction fuel as [|fuel IH]; intros c HW r c'; simpl;
    fold (overBudget c); destruct (overBudget c).
  - discriminate.
  - by intros [= <- <-].
  - destruct (head (list_ c)) as [e|]; [|by apply IH].
    destruct (removeCache (eid e) c) as [err c1|] eqn:E; [|discriminate].
    pose proof (removeCache_WF (eid e) c HW err c1 E) as HW1.
    destruct err as [e0|]; [|by apply IH]. simpl.
    destruct (log_Error (LogError e0) c1) as [[] c2|] eqn:E2; [|discriminate].
    intros [= <- <-]. apply (log_Error_WF _ c1 HW1 tt c2 E2).
  - by intros [= <- <-].
Qed.

Lemma evict_WF (now : Time) : hoare WF (evict now) (fun _ => WF).
Proof.
  unfold evict.
  eapply hoare_bind; [apply hoare_get|]. intros c0.
  eapply hoare_bind.
  - eapply hoare_weaken; [apply expiryPass_WF | by intros c [] | done].
  - intros [e|]; [by apply hoare_ret|].
    eapply hoare_bind; [apply hoare_get|]. intros c1. simpl.
    eapply hoare_weaken; [apply capacityPass_WF | by intros c [] | done].
Qed.

Lemma AddAndUpdateCache_WF (clk : Clock) (k : string) (v : option Value) :
  hoare WF (AddAndUpdateCache clk k v) (fun _ => WF).
Proof.
  unfold AddAndUpdateCache. destruct v as [v|]; [|by apply hoare_ret].
  eapply hoare_bind; [apply onMu_WF|]. intros ?.
  eapply hoare_defer; [|intros ?; apply onMu_WF].
  eapply hoare_bind; [apply hoare_get|]. intros c0.
  destruct (items c0 !! k) as [id|] eqn:Ek.
  - eapply hoare_bind.
    + eapply hoare_weaken; [apply (update_WF id v) | by intros c [] | done].
    + intros [e|]; [|by apply hoare_ret].
      eapply hoare_bind; [apply log_Error_WF|]. intros ?. by apply hoare_ret.
  - eapply hoare_bind.
    { eapply hoare_weaken; [apply (add_WF k v) | | done].
      intros c [-> HW]. by split. }
    intros ?. eapply (hoare_bind _ (fun _ => WF)).
    { apply hoare_modify. intros c HW. by apply (WF_same c). }
    intros ?. eapply hoare_bind; [apply createExpires_WF|].
    intros ?. eapply hoare_bind; [apply evict_WF|].
    intros [e|]; [|by apply hoare_ret].
    eapply hoare_bind; [apply log_Error_WF|]. intros ?. by apply hoare_ret.
Qed.

Lemma DeleteCache_WF (k : string) : hoare WF (DeleteCache k) (fun _ => WF).
Proof.
  unfold DeleteCache.
  eapply hoare_bind; [apply onMu_WF|]. intros ?.
  eapply hoare_defer; [|intros ?; apply onMu_WF].
  eapply hoare_bind; [apply hoare_get|]. intros c0.
  destruct (items c0 !! k) as [id|].
  - eapply hoare_bind.
    + eapply hoare_weaken; [apply (removeCache_WF id) | by intros c [] | done].
    + intros [e|]; [|by apply hoare_ret].
      eapply hoare_bind; [apply log_Error_WF|]. intros ?. by apply hoare_ret.
  - apply hoare_ret. by intros c [].
Qed.

Lemma FindCache_WF (now : Time) (k : string) :
  hoare WF (FindCache now k) (fun _ => WF).
Proof.
  unfold FindCache.
  eapply hoare_bind; [apply onMu_WF|]. intros ?.
  eapply hoare_bind; [apply hoare_get|]. intros c0.
  destruct (items c0 !! k) as [id|].
  - eapply (hoare_bind _ (fun _ => WF)).
    { assert (Hskip : hoare (fun c => c0 = c /\ WF c) (ret tt) (fun _ => WF))
        by (apply hoare_ret; by intros c []).
      destruct (expires c0 !! k) as [t|]; [destruct (After now t)|]; try exact Hskip.
      eapply hoare_bind.
      - eapply hoare_weaken; [apply onMu_WF | by intros c [] | done].
      - intros ?. apply hoare_modify. intros c HW. by apply (WF_same c). }
    intros ?. eapply (hoare_bind _ (fun _ => WF)).
    { intros c HW x c'. unfold elemValue.
      destruct (elemAt id (list_ c)); [|discriminate]. by intros [= _ <-]. }
    intros [en|en|en]; try apply hoare_crash.
    eapply hoare_bind; [apply onMu_WF|]. intros ?.
    eapply hoare_bind; [apply onMu_WF|]. intros ?.
    eapply hoare_bind; [apply hoare_get|]. intros c1.
    eapply (hoare_bind _ (fun _ => WF)).
    { destruct (items c1 !! k).
      - apply hoare_modify. intros c [_ HW]. apply (WF_perm c); simpl; try done.
        apply nodes_MoveToBack.
      - apply hoare_ret. by intros c []. }
    intros ?. eapply hoare_bind; [apply onMu_WF|]. intros ?. by apply hoare_ret.
  - eapply hoare_bind.
    + eapply hoare_weaken; [apply onMu_WF | by intros c [] | done].
    + intros ?. by apply hoare_ret.
Qed.

Lemma reaperTick_WF (now : Time) : hoare WF (reaperTick now) (fun _ => WF).
Proof.
  intros c HW [] c'. unfold reaperTick, cleanupLoop. simpl.
  destruct (mu_Lock c) as [[] c1|] eqn:E1; [|discriminate].
  pose proof (onMu_WF _ c HW tt c1 E1) as HW1.
  destruct (evict now c1) as [[e|] c2|] eqn:E2.
  - by destruct (log_Error (LogError e) c2).
  - pose proof (evict_WF now c1 HW1 None c2 E2) as HW2.
    destruct (mu_Unlock c2) as [[] c3|] eqn:E3; [|discriminate].
    intros [= <-]. apply (onMu_WF _ c2 HW2 tt c3 E3).
  - discriminate.
Qed.

Lemma run_WF (op : Op) : hoare WF (run op) (fun _ => WF).
Proof.
  destruct op as [clk k v|k|now k|now]; simpl.
  - eapply hoare_bind; [apply AddAndUpdateCache_WF|]. intros ?. by apply hoare_ret.
  - eapply hoare_bind; [apply DeleteCache_WF|]. intros ?. by apply hoare_ret.
  - eapply hoare_bind; [apply FindCache_WF|]. intros ?. by apply hoare_ret.
  - apply reaperTick_WF.
Qed.

Lemma reachable_WF (c : LruCache) : reachable c -> WF c.
Proof.
  induction 1 as [opt | c c' op _ IH Hrun].
  - apply WF_new.
  - apply (run_WF op c IH tt c' Hrun).
Qed.

Lemma WF_parity (c : LruCache) : WF c -> indexKeys c = sequenceKeys c.
Proof.
  intros [_ _ H3]. unfold indexKeys, sequenceKeys. apply set_eq. intros k.
  rewrite elem_of_dom, elem_of_list_to_set, list_elem_of_fmap. split.
  - intros [id Hid]. apply H3 in Hid.
    apply list_elem_of_fmap in Hid as (e & [= -> ->] & Hin). by exists e.
  - intros (e & -> & Hin). exists (eid e). apply H3.
    apply list_elem_of_fmap. by exists e.
Qed.

(** ** What the operations leave alone *)

(** A property of the state that only the expiry map and the logger can
    affect is kept by every step that returns, as long as logging keeps
    it. *)
Section Frame.

Variable I : LruCache -> Prop.
Hypothesis I_stable : forall c c',
  expires c' = expires c -> lru.log c' = lru.log c -> I c -> I c'.
Hypothesis I_log : forall line, hoare I (log_Error line) (fun _ => I).

Lemma onMu_frame (f : RWMutex -> LockResult) : hoare I (lru.onMu f) (fun _ => I).
Proof.
  intros c HI [] c' E. apply onMu_ret in E as (m & _ & ->).
  by apply (I_stable c).
Qed.

Lemma elemValue_frame (id : nat) : hoare I (elemValue id) (fun _ => I).
Proof.
  intros c HI x c'. unfold elemValue.
  destruct (elemAt id (list_ c)); [|discriminate]. by intros [= _ <-].
Qed.

Lemma add_frame (k : string) (v : Value) : hoare I (add k v) (fun _ => I).
Proof. intros c HI [] c'. unfold add. intros [= <-]. by apply (I_stable c). Qed.

Lemma update_frame (id : nat) (v : Value) : hoare I (update id v) (fun _ => I).
Proof.
  intros c HI r c'. unfold update, elemValue. cbn [bind].
  destruct (elemAt id (list_ c)) as [e|]; [|discriminate].
  destruct (EValue e) as [en|en|en]; try discriminate. simpl.
  destruct (maxBytes c <? _); simpl; intros [= <- <-]; [done|].
  by apply (I_stable c).
Qed.

Lemma removeCache_frame (id : nat) : hoare I (removeCache id) (fun _ => I).
Proof.
  intros c HI r c'. unfold removeCache, elemValue. cbn [bind].
  destruct (elemAt id (list_ c)) as [e|]; [|discriminate].
  destruct (EValue e) as [en|en|en]; try discriminate. simpl.
  destruct (onEvicted c); simpl; intros [= <- <-]; by apply (I_stable c).
Qed.

Lemma expiryPass_frame (now : Time) (es : list (string * Z)) :
  hoare I (expiryPass now es) (fun _ => I).
Proof.
  induction es as [|[i j] es IH]; simpl.
  - by apply hoare_ret.
  - destruct (After now j); [|exact IH].
    eapply hoare_bind; [apply hoare_get|]. intros c0.
    destruct (items c0 !! i) as [id|].
    + eapply hoare_bind.
      * eapply hoare_weaken; [apply (removeCache_frame id) | by intros c [] | done].
      * intros [e|]; [|exact IH].
        eapply hoare_bind; [apply I_log|]. intros ?. by apply hoare_ret.
    + eapply hoare_weaken; [exact IH | by intros c [] | done].
Qed.

Lemma capacityPass_frame (fuel : nat) : hoare I (capacityPass fuel) (fun _ => I).
Proof.
  induction fuel as [|fuel IH]; intros c HI r c'; simpl;
    fold (overBudget c); destruct (overBudget c).
  - discriminate.
  - by intros [= <- <-].
  - destruct (head (list_ c)) as [e|]; [|by apply IH].
    destruct (removeCache (eid e) c) as [err c1|] eqn:E; [|discriminate].
    pose proof (removeCache_frame (eid e) c HI err c1 E) as HI1.
    destruct err as [e0|]; [|by apply IH]. simpl.
    destruct (log_Error (LogError e0) c1) as [[] c2|] eqn:E2; [|discriminate].
    intros [= <- <-]. apply (I_log _ c1 HI1 tt c2 E2).
  - by intros [= <- <-].
Qed.

Lemma evict_frame (now : Time) : hoare I (evict now) (fun _ => I).
Proof.
  unfold evict.
  eapply hoare_bind; [apply hoare_get|]. intros c0.
  eapply hoare_bind.
  - eapply hoare_weaken; [apply expiryPass_frame | by intros c [] | done].
  - intros [e|]; [by apply hoare_ret|].
    eapply hoare_bind; [apply hoare_get|]. intros c1. simpl.
    eapply hoare_weaken; [apply capacityPass_frame | by intros c [] | done].
Qed.

Lemma DeleteCache_frame (k : string) : hoare I (DeleteCache k) (fun _ => I).
Proof.
  unfold DeleteCache.
  eapply hoare_bind; [apply onMu_frame|]. intros ?.
  eapply hoare_defer; [|intros ?; apply onMu_frame].
  eapply hoare_bind; [apply hoare_get|]. intros c0.
  destruct (items c0 !! k) as [id|].
  - eapply hoare_bind.
    + eapply hoare_weaken; [apply (removeCache_frame id) | by intros c [] | done].
    + intros [e|]; [|by apply hoare_ret].
      eapply hoare_bind; [apply I_log|]. intros ?. by apply hoare_ret.
  - apply hoare_ret. by intros c [].
Qed.

Lemma FindCache_frame (now : Time) (k : string) :
  hoare I (FindCache now k) (fun _ => I).
Proof.
  unfold FindCache.
  eapply hoare_bind; [apply onMu_frame|]. intros ?.
  eapply hoare_bind; [apply hoare_get|]. intros c0.
  destruct (items c0 !! k) as [id|].
  - eapply (hoare_bind _ (fun _ => I)).
    { assert (Hskip : hoare (fun c => c0 = c /\ I c) (ret tt) (fun _ => I))
        by (apply hoare_ret; by intros c []).
      destruct (expires c0 !! k) as [t|]; [destruct (After now t)|]; try exact Hskip.
      eapply hoare_bind.
      - eapply hoare_weaken; [apply onMu_frame | by intros c [] | done].
      - intros ?. apply hoare_modify. intros c HI. by apply (I_stable c). }
    intros ?. eapply hoare_bind; [apply elemValue_frame|].
    intros [en|en|en]; try apply hoare_crash.
    eapply hoare_bind; [apply onMu_frame|]. intros ?.
    eapply hoare_bind; [apply onMu_frame|]. intros ?.
    eapply hoare_bind; [apply hoare_get|]. intros c1.
    eapply (hoare_bind _ (fun _ => I)).
    { destruct (items c1 !! k).
      - apply hoare_modify. intros c [_ HI]. by apply (I_stable c).
      - apply hoare_ret. by intros c []. }
    intros ?. eapply hoare_bind; [apply onMu_frame|]. intros ?. by apply hoare_ret.
  - eapply hoare_bind.
    + eapply hoare_weaken; [apply onMu_frame | by intros c [] | done].
    + intros ?. by apply hoare_ret.
Qed.

Lemma reaperTick_frame (now : Time) : hoare I (reaperTick now) (fun _ => I).
Proof.
  intros c HI [] c'. unfold reaperTick, cleanupLoop. simpl.
  destruct (mu_Lock c) as [[] c1|] eqn:E1; [|discriminate].
  pose proof (onMu_frame _ c HI tt c1 E1) as HI1.
  destruct (evict now c1) as [[e|] c2|] eqn:E2.
  - by destruct (log_Error (LogError e) c2).
  - pose proof (evict_frame now c1 HI1 None c2 E2) as HI2.
    destruct (mu_Unlock c2) as [[] c3|] eqn:E3; [|discriminate].
    intros [= <-]. apply (onMu_frame _ c2 HI2 tt c3 E3).
  - discriminate.
Qed.

End Frame.

(** *** The expiry map *)

Lemma log_Error_expires (X : gmap string Z) (line : lru.LogLine) :
  hoare (fun c => expires c = X) (log_Error line) (fun _ c => expires c = X).
Proof.
  intros c HX [] c'. unfold log_Error. destruct (lru.log c); [|discriminate].
  by intros [= <-].
Qed.

Lemma expires_stable (X : gmap string Z) (c c' : LruCache) :
  expires c' = expires c -> lru.log c' = lru.log c -> expires c = X -> expires c' = X.
Proof. congruence. Qed.

Lemma AddAndUpdateCache_expires (clk : Clock) (k : string) (v : option Value)
    (c c' : LruCache) (r : option error) :
  AddAndUpdateCache clk k v c = Ret r c' ->
  expires c' =
  match v, items c !! k with
  | Some _, None => <[k := clk 0%nat + cleanupInterval c]> (expires c)
  | _, _ => expires c
  end.
Proof.
  unfold AddAndUpdateCache.
  destruct v as [v|]; simpl; [|by intros [= _ <-]].
  destruct (mu_Lock c) as [[] c1|] eqn:EL; [|discriminate].
  apply onMu_ret in EL as (m & _ & ->).
  unfold defer. simpl.
  destruct (items c !! k) as [id|]; cbn [bind].
  - destruct (update id v (set_mu m c)) as [err c2|f c2] eqn:E.
    + pose proof (update_frame _ (expires_stable (expires c))
                    id v (set_mu m c) eq_refl err c2 E) as H2.
      destruct err as [e|]; simpl.
      * destruct (log_Error (LogError e) c2) as [[] c3|f c3] eqn:E3.
        -- pose proof (log_Error_expires _ _ c2 H2 tt c3 E3) as H3. simpl.
           destruct (mu_Unlock c3) as [[] c4|] eqn:E4; [|discriminate].
           apply onMu_ret in E4 as (m' & _ & ->). by intros [= _ <-].
        -- destruct (is_panic f); [|discriminate]. by destruct (mu_Unlock c3).
      * destruct (mu_Unlock c2) as [[] c4|] eqn:E4; [|discriminate].
        apply onMu_ret in E4 as (m' & _ & ->). by intros [= _ <-].
    + destruct (is_panic f); [|discriminate]. by destruct (mu_Unlock c2).
  - simpl.
    match goal with |- context [evict ?t ?s] =>
      destruct (evict t s) as [err c2|f c2] eqn:E;
      [pose proof (evict_frame _
                     (expires_stable (<[k := clk 0%nat + cleanupInterval c]> (expires c)))
                     (log_Error_expires _) t s eq_refl err c2 E) as H2|]
    end.
    + destruct err as [e|]; simpl.
      * destruct (log_Error (LogError e) c2) as [[] c3|f c3] eqn:E3.
        -- pose proof (log_Error_expires _ _ c2 H2 tt c3 E3) as H3. simpl.
           destruct (mu_Unlock c3) as [[] c4|] eqn:E4; [|discriminate].
           apply onMu_ret in E4 as (m' & _ & ->). by intros [= _ <-].
        -- destruct (is_panic f); [|discriminate]. by destruct (mu_Unlock c3).
      * destruct (mu_Unlock c2) as [[] c4|] eqn:E4; [|discriminate].
        apply onMu_ret in E4 as (m' & _ & ->). by intros [= _ <-].
    + destruct (is_panic f); [|discriminate]. by destruct (mu_Unlock c2).
Qed.

(** An update that returns changes the list, the byte counter and, when it
    is refused, the log; nothing else. *)
Lemma AddAndUpdateCache_update_frame (clk : Clock) (k : string) (v : Value)
    (c c' : LruCache) (r : option error) :
  is_Some (items c !! k) ->
  AddAndUpdateCache clk k (Some v) c = Ret r c' ->
  items c' = items c /\ expires c' = expires c /\ maxBytes c' = maxBytes c /\
  cleanupInterval c' = cleanupInterval c /\ evictions c' = evictions c /\
  goroutines c' = goroutines c /\ lru.mu c' = lru.mu c.
Proof.
  intros [id Hk]. unfold AddAndUpdateCache. cbn [bind].
  unfold mu_Lock, lru.onMu, Lock.
  destruct (lru.mu c) as [w n] eqn:Hmu. simpl.
  destruct w; [discriminate|]. destruct n; [|discriminate]. simpl.
  unfold defer. simpl. rewrite Hk. cbn [bind].
  unfold update, elemValue. cbn [bind]. simpl.
  destruct (elemAt id (list_ c)) as [e|]; [|discriminate].
  destruct (EValue e) as [en|en|en]; try discriminate. simpl.
  destruct (maxBytes c <? _); simpl.
  - unfold log_Error. simpl. destruct (lru.log c); [|discriminate]. simpl.
    by intros [= _ <-].
  - by intros [= _ <-].
Qed.

(** *** The logger *)

Lemma log_Error_nil (line : lru.LogLine) (c : LruCache) :
  lru.log c = None -> log_Error line c = Crash PanicNilDeref c.
Proof. intros H. unfold log_Error. by rewrite H. Qed.

Lemma log_None_stable (c c' : LruCache) :
  expires c' = expires c -> lru.log c' = lru.log c ->
  lru.log c = None -> lru.log c' = None.
Proof. congruence. Qed.

Lemma log_Error_log_None (line : lru.LogLine) :
  hoare (fun c => lru.log c = None) (log_Error line) (fun _ c => lru.log c = None).
Proof. intros c H [] c'. by rewrite (log_Error_nil line c H). Qed.

Lemma AddAndUpdateCache_log_None (clk : Clock) (k : string) (v : option Value) :
  hoare (fun c => lru.log c = None) (AddAndUpdateCache clk k v)
        (fun _ c => lru.log c = None).
Proof.
  pose proof log_None_stable as Hs. pose proof log_Error_log_None as Hl.
  unfold AddAndUpdateCache. destruct v as [v|]; [|by apply hoare_ret].
  eapply hoare_bind; [by apply onMu_frame|]. intros ?.
  eapply hoare_defer; [|intros ?; by apply onMu_frame].
  eapply hoare_bind; [apply hoare_get|]. intros c0.
  destruct (items c0 !! k) as [id|].
  - eapply hoare_bind.
    + eapply hoare_weaken; [by apply (update_frame _ Hs id v) | by intros c [] | done].
    + intros [e|]; [|by apply hoare_ret].
      eapply hoare_bind; [apply Hl|]. intros ?. by apply hoare_ret.
  - eapply hoare_bind.
    { eapply hoare_weaken; [by apply (add_frame _ Hs k v) | by intros c [] | done]. }
    intros ?. eapply (hoare_bind _ (fun _ c => lru.log c = None)).
    { by apply hoare_modify. }
    intros ?. eapply (hoare_bind _ (fun _ c => lru.log c = None)).
    { intros c H [] c'. unfold createExpires. by intros [= <-]. }
    intros ?. eapply hoare_bind; [by apply evict_frame|].
    intros [e|]; [|by apply hoare_ret].
    eapply hoare_bind; [apply Hl|]. intros ?. by apply hoare_ret.
Qed.

Lemma run_log_None (op : Op) :
  hoare (fun c => lru.log c = None) (run op) (fun _ c => lru.log c = None).
Proof.
  pose proof log_None_stable as Hs. pose proof log_Error_log_None as Hl.
  destruct op as [clk k v|k|now k|now]; simpl.
  - eapply hoare_bind; [apply AddAndUpdateCache_log_None|]. intros ?. by apply hoare_ret.
  - eapply hoare_bind; [by apply DeleteCache_frame|]. intros ?. by apply hoare_ret.
  - eapply hoare_bind; [by apply FindCache_frame|]. intros ?. by apply hoare_ret.
  - by apply reaperTick_frame.
Qed.

Lemma reachable_log_None (c : LruCache) : reachable c -> lru.log c = None.
Proof.
  induction 1 as [opt | c c' op _ IH Hrun].
  - reflexivity.
  - apply (run_log_None op c IH tt c' Hrun).
Qed.

(** *** The sweep reports no error and stays within its fuel *)

Lemma removeCache_no_error (id : nat) (c c' : LruCache) (r : option error) :
  removeCache id c = Ret r c' -> r = None.
Proof.
  unfold removeCache, elemValue. cbn [bind].
  destruct (elemAt id (list_ c)) as [e|]; [|discriminate].
  destruct (EValue e) as [en|en|en]; try discriminate. simpl.
  destruct (onEvicted c); simpl; by intros [= <- _].
Qed.

Lemma expiryPass_no_error (now : Time) (es : list (string * Z))
    (c c' : LruCache) (r : option error) :
  expiryPass now es c = Ret r c' -> r = None.
Proof.
  revert c. induction es as [|[i j] es IH]; intros c; simpl.
  - by intros [= <- _].
  - destruct (After now j); [|apply IH]. simpl.
    destruct (items c !! i) as [id|]; [|apply IH]. cbn [bind].
    destruct (removeCache id c) as [err c1|] eqn:E; [|discriminate].
    apply removeCache_no_error in E as ->. apply IH.
Qed.

Lemma capacityPass_no_error (fuel : nat) (c c' : LruCache) (r : option error) :
  capacityPass fuel c = Ret r c' -> r = None.
Proof.
  revert c. induction fuel as [|fuel IH]; intros c; simpl;
    fold (overBudget c); destruct (overBudget c); try discriminate;
    try by intros [= <- _].
  destruct (head (list_ c)) as [e|]; [|apply IH].
  destruct (removeCache (eid e) c) as [err c1|] eqn:E; [|discriminate].
  apply removeCache_no_error in E as ->. apply IH.
Qed.

Lemma evict_no_error (now : Time) (c c' : LruCache) (r : option error) :
  evict now c = Ret r c' -> r = None.
Proof.
  unfold evict. simpl.
  destruct (expiryPass now (map_to_list (expires c)) c) as [err c1|] eqn:E;
    [|discriminate].
  apply expiryPass_no_error in E as ->. simpl. apply capacityPass_no_error.
Qed.

Lemma removeCache_length (id : nat) (c c' : LruCache) (r : option error) (e : Element) :
  head (list_ c) = Some e -> id = eid e -> removeCache id c = Ret r c' ->
  length (list_ c) = S (length (list_ c')).
Proof.
  intros Hh ->. unfold removeCache, elemValue. cbn [bind].
  destruct (list_ c) as [|x l] eqn:El; [discriminate|]. injection Hh as ->.
  simpl. rewrite Nat.eqb_refl.
  destruct (EValue e) as [en|en|en]; try discriminate. simpl.
  rewrite El. simpl. rewrite Nat.eqb_refl.
  destruct (onEvicted c); simpl; by intros [= _ <-].
Qed.

Lemma capacityPass_fuel (fuel : nat) (c : LruCache) :
  (length (list_ c) <= fuel)%nat -> faultOf (capacityPass fuel c) <> Some OutOfFuel.
Proof.
  revert c. induction fuel as [|fuel IH]; intros c Hlen; simpl.
  - destruct (list_ c); [|simpl in Hlen; lia]. simpl.
    by rewrite andb_false_r.
  - destruct (_ && _); [|done].
    destruct (head (list_ c)) as [e|] eqn:Hh.
    + destruct (removeCache (eid e) c) as [err c1|f c1] eqn:E.
      * pose proof (removeCache_length _ _ _ _ _ Hh eq_refl E).
        pose proof (removeCache_no_error _ _ _ _ E) as ->.
        apply IH. lia.
      * simpl. unfold removeCache, elemValue in E. cbn [bind] in E.
        destruct (elemAt (eid e) (list_ c)); [|by injection E as <- _].
        destruct (EValue e0); simpl in E; try (by injection E as <- _).
        destruct (onEvicted c); discriminate.
    + apply IH. destruct (list_ c); [simpl; lia | discriminate].
Qed.

Lemma expiryPass_fuel (now : Time) (es : list (string * Z)) (c : LruCache) :
  faultOf (expiryPass now es c) <> Some OutOfFuel.
Proof.
  revert c. induction es as [|[i j] es IH]; intros c; simpl; [done|].
  destruct (After now j); [|apply IH]. simpl.
  destruct (items c !! i) as [id|]; [|apply IH]. cbn [bind].
  destruct (removeCache id c) as [err c1|f c1] eqn:E.
  - apply removeCache_no_error in E as ->. apply IH.
  - simpl. unfold removeCache, elemValue in E. cbn [bind] in E.
    destruct (elemAt id (list_ c)); [|by injection E as <- _].
    destruct (EValue e); simpl in E; try (by injection E as <- _).
    destruct (onEvicted c); discriminate.
Qed.

(** [evict] never stops for lack of fuel: the bound it is given is
    enough. *)
Lemma evict_fuel (now : Time) (c : LruCache) :
  faultOf (evict now c) <> Some OutOfFuel.
Proof.
  unfold evict. simpl.
  destruct (expiryPass now (map_to_list (expires c)) c) as [err c1|f c1] eqn:E.
  - apply expiryPass_no_error in E as ->. simpl. by apply capacityPass_fuel.
  - pose proof (expiryPass_fuel now (map_to_list (expires c)) c) as H.
    by rewrite E in H.
Qed.

(** ** A key that is present, on a list as [add] fills it *)

Lemma elemAt_is_Some (id : nat) (l : list Element) (e : Element) :
  e ∈ l -> eid e = id -> is_Some (elemAt id l).
Proof.
  induction l as [|x l IH]; simpl.
  - intros H. by apply elem_of_nil in H.
  - intros Hin Hid. destruct (Nat.eqb (eid x) id) eqn:E; [by eexists|].
    apply elem_of_cons in Hin as [-> | Hin]; [|by apply IH].
    apply Nat.eqb_neq in E. done.
Qed.

Lemma present_elemValue (c : LruCache) (k : string) (id : nat) :
  WF c -> stored_as_added c -> items c !! k = Some id ->
  exists en, forall s, list_ s = list_ c -> elemValue id s = Ret (AnyPtrPtr en) s.
Proof.
  intros HW Ha Hk. apply (wf_index c HW) in Hk.
  apply list_elem_of_fmap in Hk as (e & [= Hid _] & Hin).
  destruct (elemAt_is_Some id (list_ c) e Hin (eq_sym Hid)) as [e' He'].
  pose proof (elemAt_in _ _ _ He') as [Hin' _].
  unfold stored_as_added in Ha. rewrite Forall_forall in Ha.
  destruct (Ha e' Hin') as [en Hen]. exists en. intros s Hs.
  unfold elemValue. by rewrite Hs, He', Hen.
Qed.

(** X13. Between operations, every call on a key that is present panics at its
    type assertion: the update and the removal leave the engine as it was;
    the lookup leaves it with the read lock held, or, when the key has
    expired, with the goroutine it started. *)
Lemma present_key_panics (c : LruCache) (k : string) :
  reachable c -> is_Some (items c !! k) ->
  (forall clk v,
     AddAndUpdateCache clk k (Some v) c = Crash PanicTypeAssertion c) /\
  DeleteCache k c = Crash PanicTypeAssertion c /\
  (forall now, faultOf (FindCache now k c) = Some PanicTypeAssertion).
Proof.
  intros Hr [id Hk].
  pose proof (reachable_WF c Hr) as HW.
  destruct (reachable_Quiet c Hr) as [Hmu Ha _ _].
  destruct (present_elemValue c k id HW Ha Hk) as [en Hen].
  split; [|split].
  - intros clk v. unfold AddAndUpdateCache. cbn [bind].
    rewrite (mu_Lock_unlocked c Hmu). unfold defer. simpl. rewrite Hk. cbn [bind].
    unfold update. cbn [bind].
    rewrite (Hen (set_mu (mkRWMutex true 0) c) eq_refl). simpl.
    f_equal. exact (set_mu_id unlocked c Hmu).
  - unfold DeleteCache. cbn [bind].
    rewrite (mu_Lock_unlocked c Hmu). unfold defer. simpl. rewrite Hk. cbn [bind].
    unfold removeCache. cbn [bind].
    rewrite (Hen (set_mu (mkRWMutex true 0) c) eq_refl). simpl.
    f_equal. exact (set_mu_id unlocked c Hmu).
  - intros now. unfold FindCache. cbn [bind].
    rewrite (mu_RLock_unlocked c Hmu). simpl. rewrite Hk.
    destruct (expires c !! k) as [t|]; [destruct (After now t)|]; simpl;
      rewrite ?mu_RUnlock_read; simpl;
      match goal with |- context [elemValue id ?s] =>
        by rewrite (Hen s eq_refl) end.
Qed.

(** ** The engines of the examples *)

Lemma engineK_run :
  run (OpAddAndUpdate (clockAt 0) "K" (Some (sized 10))) (NewLruCache opts20)
  = Ret tt engineK.
Proof. vm_compute. reflexivity. Qed.

Lemma engineKU_run :
  run (OpAddAndUpdate (clockAt 0) "u" (Some (sized 4))) engineK = Ret tt engineKU.
Proof. vm_compute. reflexivity. Qed.

Lemma engineKU_reachable : reachable engineKU.
Proof.
  eapply reachable_run; [|exact engineKU_run].
  eapply reachable_run; [|exact engineK_run].
  apply reachable_new.
Qed.

(** Had [add] pushed the [*LruEntry], the sweep of the two expired entries
    would remove both, tell the callback, and leave no byte in use. *)
Lemma evict_pushedAs_AnyPtr :
  let o := evict 100 (pushedAs AnyPtr engineKU) in
  resultOf o = Some None /\
  list_ (stateOf o) = [] /\
  items (stateOf o) = ∅ /\
  currentBytes (stateOf o) = 0 /\
  evictions (stateOf o) = [("K"%string, sized 10); ("u"%string, sized 4)].
Proof. vm_compute. repeat split; reflexivity. Qed.

(** Had [add] pushed the [*LruEntry], an update within the capacity would
    move the entry to the back and leave the expiry map as it was. *)
Lemma update_pushedAs_AnyPtr :
  let o := AddAndUpdateCache (clockAt 7) "K" (Some (sized 12)) (pushedAs AnyPtr engineKU) in
  resultOf o = Some None /\
  keyOf <$> list_ (stateOf o) = ["u"%string; "K"%string] /\
  currentBytes (stateOf o) = 18 /\
  expires (stateOf o) = expires engineKU /\
  expires engineKU !! "K"%string = Some 50.
Proof. vm_compute. repeat split; reflexivity. Qed.

(** ** The claims *)

(** C1, which the code breaks. The claim: no engine operation panics on
    caller-supplied keys and values, every retrieval of a stored entry from
    a list node succeeding because insertion stores what the type assertions
    of [update], [FindCache] and [removeCache] expect. The code: [add]
    pushes a [**LruEntry]; after one insertion of key K, the update, the
    lookup and the deletion of K each panic at their assertion. *)
Theorem C1_present_key_operations_panic :
  AddAndUpdateCache (clockAt 0) "K" (Some (sized 10)) (NewLruCache opts20)
    = Ret None engineK /\
  list_ engineK = [mkElement 0 (AnyPtrPtr (mkLruEntry "K" (sized 10)))] /\
  AddAndUpdateCache (clockAt 1) "K" (Some (sized 3)) engineK
    = Crash PanicTypeAssertion engineK /\
  faultOf (FindCache 1 "K" engineK) = Some PanicTypeAssertion /\
  DeleteCache "K" engineK = Crash PanicTypeAssertion engineK.
Proof. vm_compute. repeat split; reflexivity. Qed.

(** C3, which the code breaks. The claim: an update of an existing key
    that would push [currentBytes] above [maxBytes] returns the capacity
    error and leaves the engine unchanged, and a later lookup returns the
    prior value. The code: with 16 of 20 bytes in use, the update of K from
    10 to 20 bytes panics at the assertion of [update] and returns nothing,
    and the lookup of K panics too; had [add] pushed the asserted type, the
    rejection would panic when it is logged through the nil logger. *)
Theorem C3_update_over_capacity_panics :
  currentBytes engineKU = 16 /\ maxBytes engineKU = 20 /\
  AddAndUpdateCache (clockAt 1) "K" (Some (sized 20)) engineKU
    = Crash PanicTypeAssertion engineKU /\
  faultOf (FindCache 1 "K" engineKU) = Some PanicTypeAssertion /\
  faultOf (AddAndUpdateCache (clockAt 1) "K" (Some (sized 20))
             (pushedAs AnyPtr engineKU)) = Some PanicNilDeref.
Proof. vm_compute. repeat split; reflexivity. Qed.

(** C4, which the code breaks. The claim: the sweep runs an expiry pass
    that deletes every expired live entry, telling the callback, and then a
    capacity pass that removes the head while the bytes exceed the capacity.
    The code: at time 100 the entry of K, expired since 50, makes the first
    pass panic in [removeCache], nothing being deleted; an insertion of 103
    bytes into 20 makes the second pass panic, the entry and its bytes
    staying. *)
Theorem C4_sweep_panics_where_it_should_delete :
  expires engineK !! "K"%string = Some 50 /\
  evict 100 engineK = Crash PanicTypeAssertion engineK /\
  (let o := AddAndUpdateCache (clockAt 0) "big" (Some (sized 100))
              (NewLruCache opts20) in
   faultOf o = Some PanicTypeAssertion /\
   currentBytes (stateOf o) = 103 /\
   keyOf <$> list_ (stateOf o) = ["big"%string] /\
   evictions (stateOf o) = []).
Proof. vm_compute. repeat split; reflexivity. Qed.


(** C7, which the code breaks. The claim: a lookup of a present key whose
    expiry instant has passed returns the stored value with found = true and
    schedules the removal. The code: at time 100 the lookup of K, expired
    since 50, starts the goroutine and then panics at its assertion; had
    [add] pushed an [LruEntry], the second [RUnlock] would be a fatal error,
    while the lookup before the expiry would return the value. *)
Theorem C7_expired_lookup_returns_nothing :
  expires engineK !! "K"%string = Some 50 /\
  (let o := FindCache 100 "K" engineK in
   faultOf o = Some PanicTypeAssertion /\ resultOf o = None /\
   goroutines (stateOf o) = ["K"%string]) /\
  faultOf (FindCache 100 "K" (pushedAs AnyEntry engineK)) = Some FatalRUnlock /\
  resultOf (FindCache 10 "K" (pushedAs AnyEntry engineK))
    = Some (Some (sized 10), true).
Proof. vm_compute. repeat split; reflexivity. Qed.

(** C9, which the code breaks. The claim: a [Get] on an initialized, open
    facade increments exactly one of the two counters; a stored value that
    is not a [ByteView] counts as a miss only. The code: when the store
    finds such a value, [Get] has counted a hit before the type test fails
    and counts a miss after it. *)
Theorem C9_type_mismatch_counts_hit_and_miss :
  let o := main.Get (clockAt 0) "k" (facadeOver (Some (sized 3), true)) in
  resultOf o = Some (mkByteView [], false) /\
  main.hits (stateOf o) = 1 /\ main.misses (stateOf o) = 1.
Proof. vm_compute. repeat split; reflexivity. Qed.

(** Whatever the sweep, once it returns an error the loop is over: the
    events that follow the tick are not looked at, and the loop is not
    waiting at its [select]. *)
Lemma cleanupLoopWith_error_stops (sweep : Time -> M LruCache (option error))
    (now : Time) (evs : list Event) (c c1 c2 : LruCache) (e : error) :
  mu_Lock c = Ret tt c1 -> sweep now c1 = Ret (Some e) c2 ->
  cleanupLoopWith sweep (Tick now :: evs) c = cleanupLoopWith sweep [Tick now] c /\
  (forall c', cleanupLoopWith sweep (Tick now :: evs) c <> LoopWaiting c') /\
  (lru.mu c2 = lru.mu c1 ->
   forall err c', cleanupLoopWith sweep (Tick now :: evs) c = LoopReturned err c' ->
                  lru.mu c' = mkRWMutex true 0).
Proof.
  intros HL Hs. simpl. rewrite HL, Hs.
  split; [done|]. split.
  - intros c'. by destruct (log_Error (LogError e) c2).
  - intros Hmu err c'. unfold log_Error.
    destruct (lru.log c2); [|discriminate]. intros [= _ <-]. simpl.
    rewrite Hmu. apply onMu_ret in HL as (m & Hm & ->). simpl.
    unfold Lock in Hm. destruct (_ || _); [discriminate|]. by injection Hm as <-.
Qed.

(** X14. What [Get] does to the counters on an initialized, open facade, by
    what the store answers: a miss only when the store does not find the
    key, a hit only when it finds a [ByteView], and both a hit and a miss
    when it finds a value of another type. *)
Lemma Get_counters (clk : Clock) (k : string) (c c' : main.Cache)
    (r : ByteView * bool) :
  main.closed c <> 1 -> main.initialized c <> 0 ->
  main.Get clk k c = Ret r c' ->
  (snd r = false /\ main.hits c' = main.hits c /\
   main.misses c' = wrap64 (main.misses c + 1)) \/
  (snd r = true /\ main.hits c' = wrap64 (main.hits c + 1) /\
   main.misses c' = main.misses c) \/
  (snd r = false /\ main.hits c' = wrap64 (main.hits c + 1) /\
   main.misses c' = wrap64 (main.misses c + 1)).
Proof.
  intros Hc Hi. unfold main.Get. cbn [bind get].
  destruct (main.closed c =? 1) eqn:E1; [apply Z.eqb_eq in E1; done|].
  destruct (main.initialized c =? 0) eqn:E2; [apply Z.eqb_eq in E2; done|].
  unfold defer, main.onStore, main.onMu. simpl.
  destruct (RLock (main.mu c)) as [m|]; [|discriminate]. simpl.
  destruct (main.store c) as [[T impl st]|]; [|simpl; by destruct (RUnlock m)].
  destruct (Store_FindCache clk k st) as [[val found] st'|f st']; simpl.
  - destruct found; simpl.
    + destruct val as [[bv|tag n]|]; simpl;
        (destruct (RUnlock m); [|discriminate]); intros [= <- <-]; simpl; auto.
    + destruct (RUnlock m); [|discriminate]. intros [= <- <-]; simpl; auto.
  - destruct (is_panic f); [|discriminate]. simpl. by destruct (RUnlock m).
Qed.

(** [engineKU] is reached by its two insertions. *)
Ltac reach_engineKU :=
  apply (reachable_run engineK engineKU
           (OpAddAndUpdate (clockAt 0) "u" (Some (sized 4))));
  [ apply (reachable_run (NewLruCache opts20) engineK
             (OpAddAndUpdate (clockAt 0) "K" (Some (sized 10))));
    [ apply reachable_new | vm_compute; reflexivity ]
  | vm_compute; reflexivity ].

(** C2. In every state that a new engine reaches through operations that
    returned, [currentBytes <= maxBytes]; the constructor replaces a
    capacity that is not positive by 8 MiB, so [maxBytes] is positive and
    the capacity pass is never disabled. (An operation that would have to
    evict does not return: see C4.) *)
Theorem C2_byte_budget :
  (forall opt,
     maxBytes (NewLruCache opt) =
     if lru.MaxBytes opt <=? 0 then 8 * 1024 * 1024 else lru.MaxBytes opt) /\
  (forall c, reachable c -> 0 < maxBytes c /\ currentBytes c <= maxBytes c).
Proof.
  split.
  - intros opt. apply withDefault_MaxBytes.
  - intros c Hr. destruct (reachable_Quiet c Hr) as [_ _ Hm Hb]. by split.
Qed.

Lemma C2_byte_budget_witness :
  0 < maxBytes engineKU /\ currentBytes engineKU <= maxBytes engineKU.
Proof.
  apply (proj2 C2_byte_budget engineKU).
  reach_engineKU.
Defined.

(** C6. An operation that returns writes the expiry map only when it
    inserts a key that was absent, and then sets that key's instant to the
    time read plus [cleanupInterval]; an update of an existing key, a
    deletion, a lookup and a sweep leave the expiry map as it was. The
    update of an existing key moves the entry and changes bytes and value:
    the index map, the capacity, the interval, the calls of the callback,
    the goroutines and the lock are as before. *)
Theorem C6_expiry_written_only_by_insertion (op : Op) (c c' : LruCache) :
  run op c = Ret tt c' ->
  expires c' =
    match op with
    | OpAddAndUpdate clk k (Some _) =>
        match items c !! k with
        | None => <[k := clk 0%nat + cleanupInterval c]> (expires c)
        | Some _ => expires c
        end
    | _ => expires c
    end /\
  match op with
  | OpAddAndUpdate clk k (Some _) =>
      is_Some (items c !! k) ->
      items c' = items c /\ maxBytes c' = maxBytes c /\
      cleanupInterval c' = cleanupInterval c /\ evictions c' = evictions c /\
      goroutines c' = goroutines c /\ lru.mu c' = lru.mu c
  | _ => True
  end.
Proof.
  pose proof (expires_stable (expires c)) as Hs.
  pose proof (log_Error_expires (expires c)) as Hl.
  destruct op as [clk k v|k|now k|now]; simpl.
  - destruct (AddAndUpdateCache clk k v c) as [r c1|] eqn:E; [|discriminate].
    intros [= <-]. rewrite (AddAndUpdateCache_expires _ _ _ _ _ _ E).
    destruct v as [v|]; [|done]. split; [done|]. intros Hk.
    by destruct (AddAndUpdateCache_update_frame _ _ _ _ _ _ Hk E)
      as (? & ? & ? & ? & ? & ? & ?).
  - destruct (DeleteCache k c) as [r c1|] eqn:E; [|discriminate].
    intros [= <-]. split; [|done].
    by apply (DeleteCache_frame _ Hs Hl k c eq_refl r c1 E).
  - destruct (FindCache now k c) as [r c1|] eqn:E; [|discriminate].
    intros [= <-]. split; [|done].
    by apply (FindCache_frame _ Hs now k c eq_refl r c1 E).
  - intros E. split; [|done].
    by apply (reaperTick_frame _ Hs Hl now c eq_refl tt c' E).
Qed.

Lemma C6_expiry_written_only_by_insertion_witness :
  expires engineKU = <["u"%string := 0 + 50]> (expires engineK).
Proof.
  apply (proj1 (C6_expiry_written_only_by_insertion
                  (OpAddAndUpdate (clockAt 0) "u" (Some (sized 4)))
                  engineK engineKU engineKU_run)).
Defined.

(** C8. In every state that a new engine reaches through operations that
    returned (insertions and updates, deletions, lookups, sweeps), the keys
    of the index map are the keys of the entries of the recency list. *)
Theorem C8_index_sequence_parity (c : LruCache) :
  reachable c -> indexKeys c = sequenceKeys c.
Proof. intros Hr. apply WF_parity. by apply reachable_WF. Qed.

Lemma C8_index_sequence_parity_witness : indexKeys engineKU = sequenceKeys engineKU.
Proof.
  apply C8_index_sequence_parity.
  reach_engineKU.
Defined.

(** C10. Neither constructor assigns the logger, no engine operation
    assigns it afterwards, and a logging call on the nil logger panics; so
    the first [Add] on a new facade, which initializes the store and then
    logs that it did, panics at the nil logger whatever the options, the
    key and the value. *)
Theorem C10_nil_logger :
  (forall opt, main.log (main.NewCache opt) = None) /\
  (forall opt, lru.log (NewLruCache opt) = None) /\
  (forall c, reachable c -> lru.log c = None) /\
  (forall c line, lru.log c = None -> log_Error line c = Crash PanicNilDeref c) /\
  (forall c line, main.log c = None -> main.log_write line c = Crash PanicNilDeref c) /\
  (forall opt clk k v,
     let o := main.Add clk k v (main.NewCache opt) in
     faultOf o = Some PanicNilDeref /\
     main.initialized (stateOf o) = 1 /\
     main.log (stateOf o) = None).
Proof.
  split; [done|]. split; [done|]. split; [exact reachable_log_None|].
  split; [intros c line; apply log_Error_nil|].
  split.
  - intros c line H. unfold main.log_write. by rewrite H.
  - intros opt clk k v. by cbv.
Qed.

Lemma C10_nil_logger_witness :
  lru.log engineKU = None /\
  log_Error (LogError ErrUpdateCapacity) engineKU = Crash PanicNilDeref engineKU.
Proof.
  destruct C10_nil_logger as (_ & _ & Hreach & Hlog & _).
  assert (lru.log engineKU = None) as H.
  { apply Hreach. reach_engineKU. }
  split; [exact H|]. by apply Hlog.
Defined.

(** ** Further properties of the engine *)

(** *** A sweep that finds nothing to remove *)

Lemma expiryPass_idle (now : Time) (es : list (string * Z)) (c : LruCache) :
  (forall i j, (i, j) ∈ es -> After now j = true -> items c !! i = None) ->
  expiryPass now es c = Ret None c.
Proof.
  induction es as [|[i j] es IH]; intros H; simpl; [done|].
  assert (IH' : expiryPass now es c = Ret None c).
  { apply IH. intros i' j' Hin. apply H. by right. }
  destruct (After now j) eqn:E; [|exact IH']. simpl.
  rewrite (H i j (list_elem_of_here _ _) E). exact IH'.
Qed.

Lemma capacityPass_idle (fuel : nat) (c : LruCache) :
  overBudget c = false -> capacityPass fuel c = Ret None c.
Proof.
  intros H. destruct fuel; simpl; fold (overBudget c); by rewrite H.
Qed.

Lemma evict_idle (now : Time) (c : LruCache) :
  noneExpired now c -> overBudget c = false -> evict now c = Ret None c.
Proof.
  intros He Hb. unfold evict. simpl.
  rewrite expiryPass_idle.
  - simpl. by apply capacityPass_idle.
  - intros i j Hin. apply He. by apply elem_of_map_to_list.
Qed.

(** On a list as [add] fills it, the first loop of the sweep returns only
    when no key of the index map has expired. *)
Lemma expiryPass_as_added_ret (now : Time) (es : list (string * Z))
    (c c' : LruCache) (r : option error) :
  stored_as_added c -> expiryPass now es c = Ret r c' ->
  forall i j, (i, j) ∈ es -> After now j = true -> items c !! i = None.
Proof.
  intros Ha. induction es as [|[i j] es IH]; simpl; intros E i' j' Hin Hexp.
  - by apply elem_of_nil in Hin.
  - apply elem_of_cons in Hin as [[= -> ->] | Hin].
    + rewrite Hexp in E. simpl in E.
      destruct (items c !! i) as [id|]; [|done]. cbn [bind] in E.
      destruct (removeCache_as_added c Ha id) as (f & Hf & _).
      by rewrite Hf in E.
    + destruct (After now j); [|by apply (IH E i' j')]. simpl in E.
      destruct (items c !! i) as [id|]; [|by apply (IH E i' j')].
      cbn [bind] in E.
      destruct (removeCache_as_added c Ha id) as (f & Hf & _).
      by rewrite Hf in E.
Qed.

Lemma evict_as_added_ret (now : Time) (c c' : LruCache) (r : option error) :
  stored_as_added c -> evict now c = Ret r c' ->
  r = None /\ c' = c /\ noneExpired now c /\ overBudget c = false.
Proof.
  intros Ha E.
  destruct (evict_as_added c Ha now) as [[E' Hb] | (f & E' & _)];
    rewrite E' in E; [|discriminate].
  injection E as <- <-. split; [done|]. split; [done|]. split; [|done].
  unfold evict in E'. simpl in E'.
  destruct (expiryPass now (map_to_list (expires c)) c) as [r1 c1|] eqn:E1;
    [|discriminate].
  intros i j Hij. apply (expiryPass_as_added_ret _ _ _ _ _ Ha E1).
  by apply elem_of_map_to_list.
Qed.

Lemma insert_idle_sweep (clk : Clock) (k : string) (v : Value) (c : LruCache) :
  lru.mu c = unlocked ->
  items c !! k = None ->
  noneExpired (clk 1%nat) (inserted (clk 0%nat) k v c) ->
  overBudget (inserted (clk 0%nat) k v c) = false ->
  AddAndUpdateCache clk k (Some v) c = Ret None (inserted (clk 0%nat) k v c).
Proof.
  intros Hmu Hk He Hb. unfold AddAndUpdateCache. cbn [bind].
  rewrite (mu_Lock_unlocked c Hmu). unfold defer. simpl. rewrite Hk. simpl.
  match goal with |- context [evict ?t ?s] =>
    assert (Hev : evict t s = Ret None s) by (apply evict_idle; [exact He | exact Hb])
  end.
  rewrite Hev. simpl. f_equal. clear Hev He Hb Hk.
  destruct c. simpl in Hmu. by subst.
Qed.

(** X1. The insertion of an absent key returns nil and leaves [inserted
    ...], the entry at the back of the list, its bytes counted and its
    expiry at the time read plus the interval, whenever the lock is free
    and the sweep that follows finds no key expired and the bytes within
    the capacity. *)
Theorem insert_fresh (clk : Clock) (k : string) (v : Value) (c : LruCache) :
  lru.mu c = unlocked ->
  items c !! k = None ->
  noneExpired (clk 1%nat) (inserted (clk 0%nat) k v c) ->
  overBudget (inserted (clk 0%nat) k v c) = false ->
  AddAndUpdateCache clk k (Some v) c = Ret None (inserted (clk 0%nat) k v c).
Proof. apply insert_idle_sweep. Qed.

(** *** A sweep that has something to remove, on a list as [add] fills it *)

Lemma removeCache_indexed (c : LruCache) (k : string) (id : nat) :
  WF c -> stored_as_added c -> items c !! k = Some id ->
  removeCache id c = Crash PanicTypeAssertion c.
Proof.
  intros HW Ha Hk. destruct (present_elemValue c k id HW Ha Hk) as [en Hen].
  unfold removeCache. cbn [bind]. by rewrite (Hen c eq_refl).
Qed.

Lemma removeCache_head (c : LruCache) (e : Element) :
  stored_as_added c -> head (list_ c) = Some e ->
  removeCache (eid e) c = Crash PanicTypeAssertion c.
Proof.
  intros Ha Hh. unfold removeCache, elemValue. cbn [bind].
  destruct (list_ c) as [|x l] eqn:El; [discriminate|]. injection Hh as ->.
  simpl. rewrite Nat.eqb_refl.
  unfold stored_as_added in Ha. rewrite El in Ha.
  apply Forall_cons in Ha as [[en ->] _]. done.
Qed.

Lemma expiryPass_as_added_fault (now : Time) (es : list (string * Z))
    (c c' : LruCache) (f : Fault) :
  WF c -> stored_as_added c -> expiryPass now es c = Crash f c' ->
  f = PanicTypeAssertion /\ c' = c.
Proof.
  intros HW Ha. induction es as [|[i j] es IH]; simpl; [discriminate|].
  destruct (After now j); [|exact IH]. simpl.
  destruct (items c !! i) as [id|] eqn:Ei; [|exact IH]. cbn [bind].
  rewrite (removeCache_indexed c i id HW Ha Ei). by intros [= <- <-].
Qed.

Lemma capacityPass_as_added_fault (fuel : nat) (c c' : LruCache) (f : Fault) :
  stored_as_added c -> fuel = length (list_ c) -> capacityPass fuel c = Crash f c' ->
  f = PanicTypeAssertion /\ c' = c.
Proof.
  intros Ha Hfuel. destruct fuel as [|fuel]; simpl; fold (overBudget c).
  - destruct (overBudget c) eqn:Hb; [|discriminate].
    unfold overBudget in Hb. rewrite <- Hfuel in Hb. simpl in Hb.
    by rewrite andb_false_r in Hb.
  - destruct (overBudget c); [|discriminate].
    destruct (head (list_ c)) as [e|] eqn:Hh.
    + rewrite (removeCache_head c e Ha Hh). by intros [= <- <-].
    + destruct (list_ c); discriminate.
Qed.

(** The sweep on a list as [add] fills it: it returns, having changed
    nothing, when no key has expired and the bytes are within the capacity;
    it panics at the assertion of [removeCache], having changed nothing,
    when not. *)
Lemma evict_as_added_cases (now : Time) (c : LruCache) :
  WF c -> stored_as_added c ->
  (evict now c = Ret None c /\ noneExpired now c /\ overBudget c = false) \/
  (evict now c = Crash PanicTypeAssertion c /\
   ~ (noneExpired now c /\ overBudget c = false)).
Proof.
  intros HW Ha. destruct (evict now c) as [r c'|f c'] eqn:E.
  - left. by destruct (evict_as_added_ret now c c' r Ha E) as (-> & -> & ? & ?).
  - right. split.
    + unfold evict in E. simpl in E.
      destruct (expiryPass now (map_to_list (expires c)) c) as [r1 c1|f1 c1] eqn:E1.
      * destruct (expiryPass_as_added c Ha now (map_to_list (expires c)))
          as [E2 | (f2 & E2 & _)]; rewrite E2 in E1; [|discriminate].
        injection E1 as <- <-. simpl in E.
        by destruct (capacityPass_as_added_fault _ _ _ _ Ha eq_refl E) as [-> ->].
      * injection E as <- <-.
        by destruct (expiryPass_as_added_fault _ _ _ _ _ HW Ha E1) as [-> ->].
    + intros [He Hb]. by rewrite (evict_idle now c He Hb) in E.
Qed.

Lemma inserted_as_added (now : Time) (k : string) (v : Value) (c : LruCache) :
  stored_as_added c -> stored_as_added (inserted now k v c).
Proof.
  intros Ha. unfold stored_as_added. simpl. apply Forall_app. split; [exact Ha|].
  constructor; [by eexists | constructor].
Qed.

Lemma inserted_WF (now : Time) (k : string) (v : Value) (c : LruCache) :
  WF c -> items c !! k = None -> WF (inserted now k v c).
Proof.
  intros HW Hk. apply (WF_insert c _ k); simpl; try done.
  unfold nodes. by rewrite fmap_app.
Qed.

Lemma insert_absent_cases (clk : Clock) (k : string) (v : Value)
    (c : LruCache) :
  reachable c -> items c !! k = None ->
  (AddAndUpdateCache clk k (Some v) c = Ret None (inserted (clk 0%nat) k v c) /\
   noneExpired (clk 1%nat) (inserted (clk 0%nat) k v c) /\
   overBudget (inserted (clk 0%nat) k v c) = false) \/
  (AddAndUpdateCache clk k (Some v) c
     = Crash PanicTypeAssertion (inserted (clk 0%nat) k v c) /\
   ~ (noneExpired (clk 1%nat) (inserted (clk 0%nat) k v c) /\
      overBudget (inserted (clk 0%nat) k v c) = false)).
Proof.
  intros Hr Hk.
  pose proof (reachable_WF c Hr) as HW.
  destruct (reachable_Quiet c Hr) as [Hmu Ha _ _].
  set (s := set_mu (mkRWMutex true 0) (inserted (clk 0%nat) k v c)).
  assert (HWs : WF s) by (apply (WF_same (inserted (clk 0%nat) k v c)); try done;
                          by apply inserted_WF).
  assert (Has : stored_as_added s) by (by apply (inserted_as_added (clk 0%nat) k v c)).
  assert (Hend : set_mu unlocked s = inserted (clk 0%nat) k v c).
  { unfold s. clear -Hmu. destruct c. simpl in Hmu. by subst. }
  destruct (evict_as_added_cases (clk 1%nat) s HWs Has) as [(E & He & Hb) | (E & Hn)].
  - left. split; [|split; [exact He | exact Hb]].
    by apply insert_idle_sweep.
  - right. split; [|exact Hn].
    unfold AddAndUpdateCache. cbn [bind].
    rewrite (mu_Lock_unlocked c Hmu). unfold defer. simpl. rewrite Hk. simpl.
    match goal with |- context [evict ?t ?s0] => change s0 with s end.
    rewrite E. simpl. f_equal. exact Hend.
Qed.

(** X2. On an engine reached through the operations, the insertion of an
    absent key has two outcomes. When, with the entry in, no key has expired
    at the time the sweep reads and the bytes are within the capacity, it
    returns nil and leaves [inserted ...]. When not, it panics at the type
    assertion of [removeCache] and leaves [inserted ...] all the same: the
    entry stays stored and counted. *)
Theorem insert_absent_outcomes (clk : Clock) (k : string) (v : Value)
    (c : LruCache) :
  reachable c -> items c !! k = None ->
  (AddAndUpdateCache clk k (Some v) c = Ret None (inserted (clk 0%nat) k v c) /\
   noneExpired (clk 1%nat) (inserted (clk 0%nat) k v c) /\
   overBudget (inserted (clk 0%nat) k v c) = false) \/
  (AddAndUpdateCache clk k (Some v) c
     = Crash PanicTypeAssertion (inserted (clk 0%nat) k v c) /\
   ~ (noneExpired (clk 1%nat) (inserted (clk 0%nat) k v c) /\
      overBudget (inserted (clk 0%nat) k v c) = false)).
Proof. apply insert_absent_cases. Qed.

(** X3. The Reaper on an engine reached through the operations. A tick at
    which no key of the index map has expired leaves the engine as it was
    and the loop goes on to the next event; a tick at which one has expired
    ends the loop by the panic of [removeCache], with the lock held; the
    close signal ends it with a nil error. *)
Theorem reaper_tick_outcomes (now : Time) (evs : list Event) (c : LruCache) :
  reachable c ->
  (noneExpired now c -> cleanupLoop (Tick now :: evs) c = cleanupLoop evs c) /\
  (~ noneExpired now c ->
   cleanupLoop (Tick now :: evs) c
   = LoopCrashed PanicTypeAssertion (set_mu (mkRWMutex true 0) c)) /\
  cleanupLoop (CloseSignal :: evs) c = LoopReturned None c.
Proof.
  intros Hr.
  pose proof (reachable_WF c Hr) as HW.
  destruct (reachable_Quiet c Hr) as [Hmu Ha Hm Hb].
  set (s := set_mu (mkRWMutex true 0) c).
  assert (HWs : WF s) by (by apply (WF_same c)).
  assert (Has : stored_as_added s) by done.
  assert (Hbs : overBudget s = false).
  { unfold overBudget. simpl. apply Z.ltb_ge in Hb. by rewrite Hb. }
  split; [|split; [|done]].
  - intros He. unfold cleanupLoop. simpl. rewrite (mu_Lock_unlocked c Hmu).
    fold s. rewrite (evict_idle now s He Hbs).
    change (mu_Unlock s) with (@Ret LruCache unit tt (set_mu unlocked c)).
    by rewrite (set_mu_id unlocked c Hmu).
  - intros Hn. unfold cleanupLoop. simpl. rewrite (mu_Lock_unlocked c Hmu).
    fold s. destruct (evict_as_added_cases now s HWs Has) as [(E & He & _) | (E & _)].
    + by destruct Hn.
    + by rewrite E.
Qed.

(** *** What a history that returned has done *)

Lemma run_reachable_cases (op : Op) (c c' : LruCache) :
  reachable c -> run op c = Ret tt c' ->
  c' = c \/
  exists clk k v, op = OpAddAndUpdate clk k (Some v) /\ items c !! k = None /\
                  c' = inserted (clk 0%nat) k v c.
Proof.
  intros Hr. pose proof (reachable_Quiet c Hr) as HQ.
  destruct op as [clk k v|k|now k|now]; simpl.
  - destruct (AddAndUpdateCache clk k v c) as [r c1|] eqn:E; [|discriminate].
    intros [= <-]. destruct v as [v|].
    + destruct (AddAndUpdateCache_Quiet _ _ _ _ _ _ HQ E) as (_ & _ & [Hv | Hk]);
        [discriminate|].
      right. exists clk, k, v. split; [done|]. split; [done|].
      destruct (insert_absent_cases clk k v c Hr Hk) as [(E' & _) | (E' & _)];
        rewrite E' in E; [by injection E | discriminate].
    + left. unfold AddAndUpdateCache in E. simpl in E. by injection E.
  - destruct (DeleteCache k c) as [r c1|] eqn:E; [|discriminate].
    intros [= <-]. left. destruct HQ as [Hmu Ha _ _].
    by destruct (DeleteCache_as_added _ _ _ _ Ha Hmu E) as (_ & _ & ->).
  - destruct (FindCache now k c) as [r c1|] eqn:E; [|discriminate].
    intros [= <-]. left. destruct HQ as [Hmu Ha _ _].
    by destruct (FindCache_as_added _ _ _ _ _ Ha Hmu E) as (_ & _ & ->).
  - intros E. left. destruct HQ as [Hmu Ha _ _].
    by destruct (reaperTick_as_added _ _ _ Ha Hmu E) as (_ & ->).
Qed.

Lemma reachable_facts (c : LruCache) :
  reachable c ->
  evictions c = [] /\ goroutines c = [] /\ closeChan c = false /\
  cleanTicker c = Some (cleanupInterval c) /\ 0 < cleanupInterval c /\
  dom (items c) ⊆ dom (expires c).
Proof.
  intros Hr. split; [|split; [|split; [|split; [|split]]]].
  all: induction Hr as [opt | c c' op Hr IH Hrun]; simpl;
    [ try done
    | destruct (run_reachable_cases op c c' Hr Hrun)
        as [-> | (clk & k & v & _ & _ & ->)]; simpl; try done ].
  - apply withDefault_CleanupInterval_pos.
  - rewrite !dom_insert_L. apply union_mono_l, IH.
Qed.

(** X4. In a history of operations that all returned nothing is ever
    removed: each operation left the engine as it was or inserted an absent
    key at the back of the list. So the eviction callback has not been
    called, no goroutine has been started, and every key of the index map
    has an expiry instant. *)
Theorem reachable_only_grows (c : LruCache) :
  reachable c ->
  evictions c = [] /\ goroutines c = [] /\
  dom (items c) ⊆ dom (expires c) /\
  (forall op c', run op c = Ret tt c' ->
     c' = c \/
     exists clk k v, op = OpAddAndUpdate clk k (Some v) /\ items c !! k = None /\
                     c' = inserted (clk 0%nat) k v c).
Proof.
  intros Hr. destruct (reachable_facts c Hr) as (He & Hg & _ & _ & _ & Hd).
  split; [done|]. split; [done|]. split; [done|].
  intros op c'. by apply run_reachable_cases.
Qed.

(** *** Errors, and operations that have nothing to do *)

Lemma update_error (id : nat) (v : Value) (c c' : LruCache) (e : error) :
  update id v c = Ret (Some e) c' -> e = ErrUpdateCapacity /\ c' = c.
Proof.
  unfold update, elemValue. cbn [bind].
  destruct (elemAt id (list_ c)) as [x|]; [|discriminate].
  destruct (EValue x) as [en|en|en]; try discriminate. simpl.
  destruct (maxBytes c <? _); simpl; [|discriminate]. by intros [= <- <-].
Qed.

Lemma DeleteCache_no_error (k : string) (c c' : LruCache) (r : option error) :
  DeleteCache k c = Ret r c' -> r = None.
Proof.
  unfold DeleteCache. cbn [bind].
  destruct (mu_Lock c) as [[] c1|]; [|discriminate]. unfold defer. simpl.
  destruct (items c1 !! k) as [id|]; cbn [bind].
  - destruct (removeCache id c1) as [err c2|f c2] eqn:E.
    + apply removeCache_no_error in E as ->. simpl.
      destruct (mu_Unlock c2); [|discriminate]. by intros [= <- _].
    + destruct (is_panic f); [|discriminate]. by destruct (mu_Unlock c2).
  - simpl. destruct (mu_Unlock c1); [|discriminate]. by intros [= <- _].
Qed.

(** X5. The errors of the engine. The sweep and [DeleteCache] return nil
    whenever they return. [AddAndUpdateCache] returns an error only for an
    update of a present key that is refused for the capacity; the error is
    then the wrapped capacity error, the logger is not nil and has written a
    line, and list, index, bytes and expiry map are as before. *)
Theorem engine_errors :
  (forall now c r c', evict now c = Ret r c' -> r = None) /\
  (forall k c r c', DeleteCache k c = Ret r c' -> r = None) /\
  (forall clk k v c e c',
     AddAndUpdateCache clk k v c = Ret (Some e) c' ->
     e = ErrAddAndUpdateUpdate ErrUpdateCapacity /\
     is_Some (items c !! k) /\
     (exists out, lru.log c = Some out /\
                  lru.log c' = Some (out ++ [LogError ErrUpdateCapacity])) /\
     list_ c' = list_ c /\ items c' = items c /\
     currentBytes c' = currentBytes c /\ expires c' = expires c).
Proof.
  split; [intros now c r c'; apply evict_no_error|].
  split; [intros k c r c'; apply DeleteCache_no_error|].
  intros clk k v c e c'. unfold AddAndUpdateCache.
  destruct v as [v|]; [|discriminate]. cbn [bind].
  destruct (mu_Lock c) as [[] c1|] eqn:EL; [|discriminate].
  apply onMu_ret in EL as (m & _ & ->). unfold defer. simpl.
  destruct (items c !! k) as [id|]; cbn [bind].
  - destruct (update id v (set_mu m c)) as [[e0|] c2|f c2] eqn:E; simpl.
    + apply update_error in E as [-> ->]. unfold log_Error. simpl.
      destruct (lru.log c) as [out|] eqn:Hlog; simpl;
        [|by destruct (mu_Unlock (set_mu m c))].
      match goal with |- context [mu_Unlock ?s] =>
        destruct (mu_Unlock s) as [[] c4|] eqn:EU; [|discriminate] end.
      apply onMu_ret in EU as (m' & _ & ->).
      intros [= <- <-]. split; [done|]. split; [by eexists|].
      split; [|done]. by exists out.
    + by destruct (mu_Unlock c2).
    + destruct (is_panic f); [|discriminate]. by destruct (mu_Unlock c2).
  - simpl. match goal with |- context [evict ?t ?s] =>
      destruct (evict t s) as [err c2|f c2] eqn:E end.
    + apply evict_no_error in E as ->. simpl. by destruct (mu_Unlock c2).
    + destruct (is_panic f); [|discriminate]. by destruct (mu_Unlock c2).
Qed.

Lemma absent_key_noops_aux :
  (forall clk k c, AddAndUpdateCache clk k None c = Ret None c) /\
  (forall k c, lru.mu c = unlocked -> items c !! k = None ->
               DeleteCache k c = Ret None c) /\
  (forall now k c, writer (lru.mu c) = false -> items c !! k = None ->
                   FindCache now k c = Ret (None, false) c).
Proof.
  split; [done|]. split.
  - intros k c Hmu Hk. unfold DeleteCache. cbn [bind].
    rewrite (mu_Lock_unlocked c Hmu). unfold defer. simpl. rewrite Hk. simpl.
    f_equal. exact (set_mu_id unlocked c Hmu).
  - intros now k c Hw Hk. unfold FindCache. cbn [bind].
    unfold mu_RLock, lru.onMu, RLock. rewrite Hw. simpl. rewrite Hk. simpl.
    f_equal. destruct c as [? ? ? ? [w n] ? ? ? ? ? ? ? ? ?]. simpl in *. by subst.
Qed.

(** X6. Operations that have nothing to do return at once and leave the
    engine as it was: [AddAndUpdateCache] of the nil value (without taking
    the lock), [DeleteCache] of an absent key (nil error, no callback), and
    [FindCache] of an absent key (not found), whatever the expiry map
    holds. *)
Theorem absent_key_noops :
  (forall clk k c, AddAndUpdateCache clk k None c = Ret None c) /\
  (forall k c, lru.mu c = unlocked -> items c !! k = None ->
               DeleteCache k c = Ret None c) /\
  (forall now k c, writer (lru.mu c) = false -> items c !! k = None ->
                   FindCache now k c = Ret (None, false) c).
Proof. exact absent_key_noops_aux. Qed.

Lemma FindCache_present_fault (c : LruCache) (k : string) :
  reachable c -> is_Some (items c !! k) ->
  forall now, faultOf (FindCache now k c) = Some PanicTypeAssertion.
Proof.
  intros Hr [id Hk] now.
  pose proof (reachable_WF c Hr) as HW.
  destruct (reachable_Quiet c Hr) as [Hmu Ha _ _].
  destruct (present_elemValue c k id HW Ha Hk) as [en Hen].
  unfold FindCache. cbn [bind].
  rewrite (mu_RLock_unlocked c Hmu). simpl. rewrite Hk.
  destruct (expires c !! k) as [t|]; [destruct (After now t)|]; simpl;
    rewrite ?mu_RUnlock_read; simpl;
    match goal with |- context [elemValue id ?s] =>
      by rewrite (Hen s eq_refl) end.
Qed.

(** X7. With no other holder of the lock, [FindCache] of a present key
    whose expiry instant has passed never returns, whatever the list holds:
    it starts the goroutine that deletes the key, and then panics (at the
    element or at the type assertion) or, when the assertion holds, stops
    with the fatal error of the second [RUnlock]. *)
Theorem FindCache_expired_never_returns (now t : Time) (k : string)
    (c : LruCache) :
  lru.mu c = unlocked -> is_Some (items c !! k) ->
  expires c !! k = Some t -> t < now ->
  resultOf (FindCache now k c) = None /\
  goroutines (stateOf (FindCache now k c)) = goroutines c ++ [k].
Proof.
  intros Hmu [id Hk] Ht Hlt. unfold FindCache. cbn [bind].
  rewrite (mu_RLock_unlocked c Hmu). simpl. rewrite Hk, Ht.
  unfold After. rewrite (proj2 (Z.ltb_lt t now) Hlt). simpl.
  unfold elemValue. simpl.
  destruct (elemAt id (list_ c)) as [e|]; [|done].
  by destruct (EValue e).
Qed.

(** *** What a sweep that returns has achieved *)

Lemma removeCache_items_None (id : nat) (c c' : LruCache) (r : option error)
    (k : string) :
  removeCache id c = Ret r c' -> items c !! k = None -> items c' !! k = None.
Proof.
  unfold removeCache, elemValue. cbn [bind].
  destruct (elemAt id (list_ c)) as [e|]; [|discriminate].
  destruct (EValue e) as [en|en|en]; try discriminate. simpl.
  destruct (onEvicted c); simpl; intros [= _ <-] Hk; simpl;
    rewrite !lookup_delete; by repeat case_decide.
Qed.

Lemma NoDup_fst_unique {A B} (l : list (A * B)) (x : A) (y1 y2 : B) :
  NoDup l.*1 -> (x, y1) ∈ l -> (x, y2) ∈ l -> y1 = y2.
Proof.
  induction l as [|[a b] l IH]; simpl; intros Hnd H1 H2.
  - by apply elem_of_nil in H1.
  - apply NoDup_cons in Hnd as [Hnotin Hnd].
    apply elem_of_cons in H1 as [E1 | H1];
      apply elem_of_cons in H2 as [E2 | H2].
    + congruence.
    + injection E1 as -> ->. destruct Hnotin.
      apply list_elem_of_fmap. by exists (a, y2).
    + injection E2 as -> ->. destruct Hnotin.
      apply list_elem_of_fmap. by exists (a, y1).
    + by apply IH.
Qed.

Lemma removeCache_removes (id : nat) (c c' : LruCache) (r : option error)
    (k : string) :
  WF c -> items c !! k = Some id -> removeCache id c = Ret r c' ->
  items c' !! k = None.
Proof.
  intros HW Hk. unfold removeCache, elemValue. cbn [bind].
  destruct (elemAt id (list_ c)) as [e|] eqn:E; [|discriminate].
  destruct (EValue e) as [en|en|en] eqn:Ee; try discriminate. simpl.
  assert (Hkey : key en = k).
  { apply (wf_index c HW) in Hk.
    destruct (elemAt_in _ _ _ E) as [Hin Hid].
    assert ((id, keyOf e) ∈ nodes (list_ c)) as Hin'.
    { apply list_elem_of_fmap. exists e. by rewrite Hid. }
    pose proof (NoDup_fst_unique _ _ _ _ (wf_ids c HW) Hin' Hk) as Hkk.
    unfold keyOf in Hkk. by rewrite Ee in Hkk. }
  destruct (onEvicted c); simpl; intros [= _ <-]; simpl;
    rewrite Hkey; by rewrite lookup_delete_eq.
Qed.

Lemma expiryPass_post (now : Time) (es : list (string * Z)) (c c' : LruCache)
    (r : option error) :
  WF c -> expiryPass now es c = Ret r c' ->
  WF c' /\
  (forall k, items c !! k = None -> items c' !! k = None) /\
  (forall i j, (i, j) ∈ es -> After now j = true -> items c' !! i = None).
Proof.
  revert c. induction es as [|[i j] es IH]; intros c HW; simpl.
  - intros [= _ <-]. split; [done|]. split; [done|].
    intros i j H. by apply elem_of_nil in H.
  - assert (Hskip : expiryPass now es c = Ret r c' ->
              (After now j = true -> items c !! i = None) ->
              WF c' /\ (forall k, items c !! k = None -> items c' !! k = None) /\
              (forall i0 j0, (i0, j0) ∈ (i, j) :: es -> After now j0 = true ->
                             items c' !! i0 = None)).
    { intros E Hi. destruct (IH c HW E) as (HW' & Hmono & Hes).
      split; [done|]. split; [done|]. intros i0 j0 Hin Hexp.
      apply elem_of_cons in Hin as [[= -> ->] | Hin]; [|by apply (Hes i0 j0)].
      by apply Hmono, Hi. }
    destruct (After now j) eqn:Ej; [|intros E; by apply Hskip]. simpl.
    destruct (items c !! i) as [id|] eqn:Ei; [|intros E; by apply Hskip].
    cbn [bind]. destruct (removeCache id c) as [err c1|] eqn:E1; [|discriminate].
    pose proof (removeCache_no_error _ _ _ _ E1) as ->.
    pose proof (removeCache_WF id c HW None c1 E1) as HW1.
    pose proof (removeCache_removes _ _ _ _ _ HW Ei E1) as Hi1.
    intros E. destruct (IH c1 HW1 E) as (HW' & Hmono & Hes).
    split; [done|]. split.
    + intros k Hk. apply Hmono. by apply (removeCache_items_None _ _ _ _ _ E1).
    + intros i0 j0 Hin Hexp.
      apply elem_of_cons in Hin as [[= -> ->] | Hin]; [|by apply (Hes i0 j0)].
      by apply Hmono.
Qed.

Lemma capacityPass_post (fuel : nat) (c c' : LruCache) (r : option error) :
  capacityPass fuel c = Ret r c' ->
  overBudget c' = false /\
  (forall k, items c !! k = None -> items c' !! k = None).
Proof.
  revert c. induction fuel as [|fuel IH]; intros c; simpl;
    fold (overBudget c); destruct (overBudget c) eqn:Hb; try discriminate;
    try (by intros [= _ <-]).
  destruct (head (list_ c)) as [e|]; [|apply IH].
  destruct (removeCache (eid e) c) as [err c1|] eqn:E1; [|discriminate].
  pose proof (removeCache_no_error _ _ _ _ E1) as ->. intros E.
  destruct (IH c1 E) as [Hb' Hmono]. split; [done|].
  intros k Hk. apply Hmono. by apply (removeCache_items_None _ _ _ _ _ E1).
Qed.

(** X8. A sweep that returns, from an engine whose index map and list
    describe each other, leaves no key in the index map whose expiry instant
    is before the time it read, and leaves the bytes within the capacity
    unless the list is empty; it adds no key to the index map, and leaves
    the expiry map as it was: the instants of removed keys stay. *)
Theorem evict_post (now : Time) (c c' : LruCache) (r : option error) :
  WF c -> evict now c = Ret r c' ->
  noneExpired now c' /\ overBudget c' = false /\
  (forall k, items c !! k = None -> items c' !! k = None) /\
  expires c' = expires c /\ WF c'.
Proof.
  intros HW E.
  pose proof (evict_frame _ (expires_stable (expires c))
                (log_Error_expires (expires c)) now c eq_refl r c' E) as Hexp.
  pose proof (evict_WF now c HW r c' E) as HW'.
  unfold evict in E. simpl in E.
  destruct (expiryPass now (map_to_list (expires c)) c) as [r1 c1|] eqn:E1;
    [|discriminate].
  pose proof (expiryPass_no_error _ _ _ _ _ E1) as ->. simpl in E.
  destruct (expiryPass_post _ _ _ _ _ HW E1) as (_ & Hmono1 & Hes).
  destruct (capacityPass_post _ _ _ _ E) as [Hb Hmono2].
  split; [|split; [done|split; [|done]]].
  - intros i j Hij Hj. apply Hmono2, (Hes i j); [|done].
    apply elem_of_map_to_list. by rewrite <- Hexp.
  - intros k Hk. by apply Hmono2, Hmono1.
Qed.

(** *** Construction and shutdown *)

(** X9. [withDefault] keeps a positive capacity and a positive interval,
    replaces the others by 8 MiB and by one minute, keeps the callback, and
    run again changes nothing; so a new engine has a positive capacity and a
    ticker of positive period, and the factory builds the same engine for
    every cache type. *)
Theorem construction_defaults (opt : Options) :
  0 < lru.MaxBytes (withDefault opt) /\
  0 < lru.CleanupInterval (withDefault opt) /\
  lru.OnEvicted (withDefault opt) = lru.OnEvicted opt /\
  (0 < lru.MaxBytes opt -> lru.MaxBytes (withDefault opt) = lru.MaxBytes opt) /\
  (lru.MaxBytes opt <= 0 -> lru.MaxBytes (withDefault opt) = 8388608) /\
  (0 < lru.CleanupInterval opt ->
   lru.CleanupInterval (withDefault opt) = lru.CleanupInterval opt) /\
  (lru.CleanupInterval opt <= 0 ->
   lru.CleanupInterval (withDefault opt) = 60000000000) /\
  withDefault (withDefault opt) = withDefault opt /\
  (forall t, NewStore t opt = mkStoreObj LruCache LruCache_Store (NewLruCache opt)).
Proof.
  unfold withDefault, Minute.
  destruct (lru.CleanupInterval opt <=? 0) eqn:E1; simpl;
    destruct (lru.MaxBytes opt <=? 0) eqn:E2; simpl;
    rewrite ?E1, ?E2; simpl;
    try apply Z.leb_le in E1; try apply Z.leb_gt in E1;
    try apply Z.leb_le in E2; try apply Z.leb_gt in E2.
  all: repeat split; try lia; try done.
  all: try (destruct opt; simpl in *; done).
  all: intros t; unfold NewStore; by destruct (String.eqb t LRU).
Qed.

(** X10. On an engine reached through the operations, [Close] returns and
    closes the channel, on which the Reaper's loop returns nil; a second
    [Close] panics, closing the closed channel. *)
Theorem Close_twice_panics (c : LruCache) :
  reachable c ->
  exists c1, Close c = Ret tt c1 /\ closeChan c1 = true /\
             cleanupLoop [CloseSignal] c1 = LoopReturned None c1 /\
             Close c1 = Crash PanicCloseClosed c1.
Proof.
  intros Hr. destruct (reachable_facts c Hr) as (_ & _ & Hc & Ht & _).
  exists (set_closeChan true c). unfold Close. simpl. by rewrite Ht, Hc.
Qed.

(** *** Counting the entries *)

Lemma nodes_keys (l : list Element) : (nodes l).*2 = keyOf <$> l.
Proof. unfold nodes. rewrite <- list_fmap_compose. done. Qed.

Lemma WF_keys_NoDup (c : LruCache) : WF c -> NoDup (keyOf <$> list_ c).
Proof.
  intros [H1 _ H3]. rewrite <- nodes_keys.
  apply NoDup_fmap_2_strong; [|by apply (NoDup_fmap_1 fst)].
  intros [id1 k1] [id2 k2] Hin1 Hin2. simpl. intros <-.
  apply H3 in Hin1, Hin2. congruence.
Qed.

(** X11. When the index map and the list describe each other, as they do
    on every engine reached through the operations, each key occurs once in
    the list, and [Len] returns the number of keys of the index map and
    leaves the engine as it was. *)
Theorem Len_counts_the_index (c : LruCache) :
  WF c -> lru.mu c = unlocked ->
  NoDup (keyOf <$> list_ c) /\
  LruCache_Len c = Ret (Z.of_nat (size (items c))) c.
Proof.
  intros HW Hmu. pose proof (WF_keys_NoDup c HW) as Hnd. split; [done|].
  unfold LruCache_Len. cbn [bind]. rewrite (mu_RLock_unlocked c Hmu).
  unfold defer. simpl. f_equal; [|exact (set_mu_id unlocked c Hmu)].
  f_equal. rewrite <- size_dom.
  change (dom (items c)) with (indexKeys c). rewrite (WF_parity c HW).
  unfold sequenceKeys. rewrite size_list_to_set by done.
  by rewrite length_fmap.
Qed.

(** *** The byte counter and the entries *)

Lemma wrap64_eq (z : Z) : exists q, wrap64 z = z + q * 2 ^ 64.
Proof.
  unfold wrap64. exists (- ((z + 2 ^ 63) / 2 ^ 64)).
  rewrite Z.mod_eq by lia. lia.
Qed.

Lemma wrap64_range (z : Z) : - 2 ^ 63 <= wrap64 z < 2 ^ 63.
Proof.
  unfold wrap64. pose proof (Z.mod_pos_bound (z + 2 ^ 63) (2 ^ 64)). lia.
Qed.

Lemma wrap64_id (z : Z) : - 2 ^ 63 <= z < 2 ^ 63 -> wrap64 z = z.
Proof. intros H. unfold wrap64. rewrite Z.mod_small by lia. lia. Qed.

Lemma totalBytes_app (l1 l2 : list Element) :
  totalBytes (l1 ++ l2) = totalBytes l1 + totalBytes l2.
Proof. induction l1 as [|e l1 IH]; simpl; [done|]. rewrite IH. lia. Qed.

Lemma totalBytes_Remove (id : nat) (l : list Element) (e : Element) :
  elemAt id l = Some e ->
  totalBytes l = entryBytes (entryOf (EValue e)) + totalBytes (Remove id l).
Proof.
  induction l as [|x l IH]; simpl; [discriminate|].
  destruct (Nat.eqb (eid x) id); [by intros [= ->]|].
  intros H. simpl. rewrite (IH H). lia.
Qed.

Lemma totalBytes_MoveToBack (id : nat) (l : list Element) :
  totalBytes (MoveToBack id l) = totalBytes l.
Proof.
  unfold MoveToBack. destruct (elemAt id l) as [e|] eqn:E; [|done].
  rewrite totalBytes_app, (totalBytes_Remove id l e E). simpl. lia.
Qed.

Lemma totalBytes_setValue (id : nat) (a : Any) (l : list Element) (e : Element) :
  elemAt id l = Some e ->
  totalBytes (setValue id a l)
  = totalBytes l - entryBytes (entryOf (EValue e)) + entryBytes (entryOf a).
Proof.
  induction l as [|x l IH]; simpl; [discriminate|].
  destruct (Nat.eqb (eid x) id).
  - intros [= ->]. simpl. lia.
  - intros H. simpl. rewrite (IH H). lia.
Qed.

Lemma Accounted_same (c c' : LruCache) :
  list_ c' = list_ c -> currentBytes c' = currentBytes c ->
  Accounted c -> Accounted c'.
Proof. unfold Accounted. by intros -> ->. Qed.

Lemma onMu_Accounted (f : RWMutex -> LockResult) :
  hoare Accounted (lru.onMu f) (fun _ => Accounted).
Proof.
  intros c H [] c' E. apply onMu_ret in E as (m & _ & ->).
  by apply (Accounted_same c).
Qed.

Lemma log_Error_Accounted (line : lru.LogLine) :
  hoare Accounted (log_Error line) (fun _ => Accounted).
Proof.
  intros c H [] c'. unfold log_Error. destruct (lru.log c); [|discriminate].
  intros [= <-]. by apply (Accounted_same c).
Qed.

Lemma removeCache_Accounted (id : nat) :
  hoare Accounted (removeCache id) (fun _ => Accounted).
Proof.
  intros c [z Hz] r c'. unfold removeCache, elemValue. cbn [bind].
  destruct (elemAt id (list_ c)) as [e|] eqn:E; [|discriminate].
  destruct (EValue e) as [en|en|en] eqn:Ee; try discriminate. simpl.
  assert (HT : totalBytes (list_ c) = entryBytes en + totalBytes (Remove id (list_ c)))
    by (rewrite (totalBytes_Remove id _ e E); by rewrite Ee).
  assert (Accounted (set_currentBytes
            (wrap64 (currentBytes c - entryBytes en))
            (set_list_ (Remove id (list_ c)) c))) as HA.
  { unfold Accounted. simpl.
    destruct (wrap64_eq (currentBytes c - entryBytes en)) as [q ->].
    exists (z + q). lia. }
  destruct (onEvicted c); simpl; intros [= _ <-];
    by apply (Accounted_same _ _ eq_refl eq_refl HA).
Qed.

Lemma update_Accounted (id : nat) (v : Value) :
  hoare Accounted (update id v) (fun _ => Accounted).
Proof.
  intros c [z Hz] r c'. unfold update, elemValue. cbn [bind].
  destruct (elemAt id (list_ c)) as [e|] eqn:E; [|discriminate].
  destruct (EValue e) as [en|en|en] eqn:Ee; try discriminate. simpl.
  destruct (maxBytes c <? _); simpl; intros [= _ <-]; [by exists z|].
  unfold Accounted. simpl. rewrite totalBytes_MoveToBack.
  rewrite (totalBytes_setValue id _ _ e E), Ee. simpl. unfold entryBytes. simpl.
  destruct (wrap64_eq (Len v - Len (value en))) as [q1 ->].
  destruct (wrap64_eq (currentBytes c + (Len v - Len (value en) + q1 * 2 ^ 64)))
    as [q2 ->].
  destruct (wrap64_eq (Z.of_nat (String.length (key en)) + Len (value en)))
    as [q3 ->].
  destruct (wrap64_eq (Z.of_nat (String.length (key en)) + Len v)) as [q4 ->].
  exists (z + q1 + q2 + q3 - q4). lia.
Qed.

Lemma inserted_Accounted (now : Time) (k : string) (v : Value) (c : LruCache) :
  Accounted c -> Accounted (inserted now k v c).
Proof.
  intros [z Hz]. unfold Accounted. simpl. rewrite totalBytes_app. simpl.
  unfold entryBytes. simpl.
  destruct (wrap64_eq (Z.of_nat (String.length k) + Len v)) as [q1 Hq1].
  rewrite Hq1.
  destruct (wrap64_eq (currentBytes c + (Z.of_nat (String.length k) + Len v + q1 * 2 ^ 64)))
    as [q2 ->].
  exists (z + q2). lia.
Qed.

Lemma expiryPass_Accounted (now : Time) (es : list (string * Z)) :
  hoare Accounted (expiryPass now es) (fun _ => Accounted).
Proof.
  induction es as [|[i j] es IH]; simpl.
  - by apply hoare_ret.
  - destruct (After now j); [|exact IH].
    eapply hoare_bind; [apply hoare_get|]. intros c0.
    destruct (items c0 !! i) as [id|].
    + eapply hoare_bind.
      * eapply hoare_weaken; [apply (removeCache_Accounted id) | by intros c [] | done].
      * intros [e|]; [|exact IH].
        eapply hoare_bind; [apply log_Error_Accounted|]. intros ?. by apply hoare_ret.
    + eapply hoare_weaken; [exact IH | by intros c [] | done].
Qed.

Lemma capacityPass_Accounted (fuel : nat) :
  hoare Accounted (capacityPass fuel) (fun _ => Accounted).
Proof.
  induction fuel as [|fuel IH]; intros c HA r c'; simpl;
    fold (overBudget c); destruct (overBudget c).
  - discriminate.
  - by intros [= <- <-].
  - destruct (head (list_ c)) as [e|]; [|by apply IH].
    destruct (removeCache (eid e) c) as [err c1|] eqn:E; [|discriminate].
    pose proof (removeCache_Accounted (eid e) c HA err c1 E) as HA1.
    pose proof (removeCache_no_error _ _ _ _ E) as ->. by apply IH.
  - by intros [= <- <-].
Qed.

Lemma evict_Accounted (now : Time) : hoare Accounted (evict now) (fun _ => Accounted).
Proof.
  unfold evict.
  eapply hoare_bind; [apply hoare_get|]. intros c0.
  eapply hoare_bind.
  - eapply hoare_weaken; [apply expiryPass_Accounted | by intros c [] | done].
  - intros [e|]; [by apply hoare_ret|].
    eapply hoare_bind; [apply hoare_get|]. intros c1. simpl.
    eapply hoare_weaken; [apply capacityPass_Accounted | by intros c [] | done].
Qed.

Lemma AddAndUpdateCache_Accounted (clk : Clock) (k : string) (v : option Value) :
  hoare Accounted (AddAndUpdateCache clk k v) (fun _ => Accounted).
Proof.
  unfold AddAndUpdateCache. destruct v as [v|]; [|by apply hoare_ret].
  eapply hoare_bind; [apply onMu_Accounted|]. intros ?.
  eapply hoare_defer; [|intros ?; apply onMu_Accounted].
  eapply hoare_bind; [apply hoare_get|]. intros c0.
  destruct (items c0 !! k) as [id|].
  - eapply hoare_bind.
    + eapply hoare_weaken; [apply (update_Accounted id v) | by intros c [] | done].
    + intros [e|]; [|by apply hoare_ret].
      eapply hoare_bind; [apply log_Error_Accounted|]. intros ?. by apply hoare_ret.
  - eapply (hoare_bind _ (fun _ c => exists c1, Accounted c1 /\ c = stateOf (add k v c1))).
    { intros c [_ HA] [] c'. unfold add. intros [= <-]. by exists c. }
    intros ?. eapply (hoare_bind _ (fun _ => Accounted)).
    { apply hoare_modify. intros c (c1 & HA & ->).
      by apply (Accounted_same (inserted 0 k v c1)), inserted_Accounted. }
    intros ?. eapply (hoare_bind _ (fun _ => Accounted)).
    { intros c HA [] c'. unfold createExpires. intros [= <-].
      by apply (Accounted_same c). }
    intros ?. eapply hoare_bind; [apply evict_Accounted|].
    intros [e|]; [|by apply hoare_ret].
    eapply hoare_bind; [apply log_Error_Accounted|]. intros ?. by apply hoare_ret.
Qed.

Lemma run_Accounted (op : Op) : hoare Accounted (run op) (fun _ => Accounted).
Proof.
  destruct op as [clk k v|k|now k|now]; simpl.
  - eapply hoare_bind; [apply AddAndUpdateCache_Accounted|]. intros ?.
    by apply hoare_ret.
  - eapply (hoare_bind _ (fun _ => Accounted)); [|intros ?; by apply hoare_ret].
    unfold DeleteCache.
    eapply hoare_bind; [apply onMu_Accounted|]. intros ?.
    eapply hoare_defer; [|intros ?; apply onMu_Accounted].
    eapply hoare_bind; [apply hoare_get|]. intros c0.
    destruct (items c0 !! k) as [id|].
    + eapply hoare_bind.
      * eapply hoare_weaken; [apply (removeCache_Accounted id) | by intros c [] | done].
      * intros [e|]; [|by apply hoare_ret].
        eapply hoare_bind; [apply log_Error_Accounted|]. intros ?. by apply hoare_ret.
    + apply hoare_ret. by intros c [].
  - eapply (hoare_bind _ (fun _ => Accounted)); [|intros ?; by apply hoare_ret].
    unfold FindCache.
    eapply hoare_bind; [apply onMu_Accounted|]. intros ?.
    eapply hoare_bind; [apply hoare_get|]. intros c0.
    destruct (items c0 !! k) as [id|].
    + eapply (hoare_bind _ (fun _ => Accounted)).
      { assert (Hskip : hoare (fun c => c0 = c /\ Accounted c) (ret tt)
                          (fun _ => Accounted))
          by (apply hoare_ret; by intros c []).
        destruct (expires c0 !! k) as [t|]; [destruct (After now t)|]; try exact Hskip.
        eapply hoare_bind.
        - eapply hoare_weaken; [apply onMu_Accounted | by intros c [] | done].
        - intros ?. apply hoare_modify. intros c HA. by apply (Accounted_same c). }
      intros ?. eapply (hoare_bind _ (fun _ => Accounted)).
      { intros c HA x c'. unfold elemValue.
        destruct (elemAt id (list_ c)); [|discriminate]. by intros [= _ <-]. }
      intros [en|en|en]; try apply hoare_crash.
      eapply hoare_bind; [apply onMu_Accounted|]. intros ?.
      eapply hoare_bind; [apply onMu_Accounted|]. intros ?.
      eapply hoare_bind; [apply hoare_get|]. intros c1.
      eapply (hoare_bind _ (fun _ => Accounted)).
      { destruct (items c1 !! k).
        - apply hoare_modify. intros c [_ HA]. unfold Accounted. simpl.
          by rewrite totalBytes_MoveToBack.
        - apply hoare_ret. by intros c []. }
      intros ?. eapply hoare_bind; [apply onMu_Accounted|]. intros ?.
      by apply hoare_ret.
    + eapply hoare_bind.
      * eapply hoare_weaken; [apply onMu_Accounted | by intros c [] | done].
      * intros ?. by apply hoare_ret.
  - intros c HA [] c'. unfold reaperTick, cleanupLoop. simpl.
    destruct (mu_Lock c) as [[] c1|] eqn:E1; [|discriminate].
    pose proof (onMu_Accounted _ c HA tt c1 E1) as HA1.
    destruct (evict now c1) as [[e|] c2|] eqn:E2.
    + by destruct (log_Error (LogError e) c2).
    + pose proof (evict_Accounted now c1 HA1 None c2 E2) as HA2.
      destruct (mu_Unlock c2) as [[] c3|] eqn:E3; [|discriminate].
      intros [= <-]. apply (onMu_Accounted _ c2 HA2 tt c3 E3).
    + discriminate.
Qed.

Lemma wrap64_add_l (a b : Z) : wrap64 (wrap64 a + b) = wrap64 (a + b).
Proof.
  destruct (wrap64_eq a) as [q Hq]. rewrite Hq. unfold wrap64. f_equal.
  replace (a + q * 2 ^ 64 + b + 2 ^ 63) with (a + b + 2 ^ 63 + q * 2 ^ 64) by lia.
  apply Z.mod_add. lia.
Qed.

Lemma reachable_currentBytes (c : LruCache) :
  reachable c -> currentBytes c = wrap64 (totalBytes (list_ c)).
Proof.
  induction 1 as [opt | c c' op Hr IH Hrun]; [done|].
  destruct (run_reachable_cases op c c' Hr Hrun)
    as [-> | (clk & k & v & _ & _ & ->)]; [done|].
  simpl. rewrite totalBytes_app. simpl. unfold entryBytes. simpl.
  rewrite IH, wrap64_add_l. f_equal. lia.
Qed.

(** X12. The byte counter follows the entries. On a new engine, and after
    every operation that returns from an engine on which it held,
    [currentBytes] differs from the sum of [int64(len(key) + value.Len())]
    over the entries of the list by a multiple of 2^64: insertion, update,
    removal and both loops of the sweep add and subtract what the entries
    weigh, up to the wrap-around of [int64]. On an engine reached through
    the operations the counter is that sum, wrapped. *)
Theorem byte_accounting :
  (forall opt, Accounted (NewLruCache opt)) /\
  (forall op c c', Accounted c -> run op c = Ret tt c' -> Accounted c') /\
  (forall c, reachable c -> currentBytes c = wrap64 (totalBytes (list_ c))).
Proof.
  split; [intros opt; by exists 0|]. split; [|exact reachable_currentBytes].
  intros op c c' HA E. apply (run_Accounted op c HA tt c' E).
Qed.

(** *** The facade before its store exists *)

(** X15. [Get] and [Delete] leave the store alone on a facade that is
    closed or not initialized: [Get] returns no value and not found, and
    counts a miss only when the facade is not closed; [Delete] does
    nothing. On a new facade both return, though [store] is nil. *)
Theorem facade_before_init :
  (forall clk k c, main.closed c = 1 ->
     main.Get clk k c = Ret (mkByteView [], false) c) /\
  (forall clk k c, main.closed c <> 1 -> main.initialized c = 0 ->
     main.Get clk k c
     = Ret (mkByteView [], false) (main.set_misses (wrap64 (main.misses c + 1)) c)) /\
  (forall k c, main.closed c = 1 \/ main.initialized c = 0 ->
     main.Delete k c = Ret tt c) /\
  (forall opt clk k,
     main.misses (stateOf (main.Get clk k (main.NewCache opt))) = 1 /\
     main.Delete k (main.NewCache opt) = Ret tt (main.NewCache opt)).
Proof.
  split; [|split; [|split]].
  - intros clk k c Hc. unfold main.Get. simpl. by rewrite Hc.
  - intros clk k c Hc Hi. unfold main.Get. simpl. rewrite Hi. simpl.
    by destruct (main.closed c =? 1) eqn:E; [apply Z.eqb_eq in E|].
  - intros k c H. unfold main.Delete. simpl.
    destruct H as [-> | ->]; simpl; [done|]. by rewrite orb_true_r.
  - done.
Qed.

(** *** A lookup that finds an [LruEntry] *)

(** X16. What [FindCache] does once its assertion holds. When the lock is
    free, the key is in the index map, its element holds an [LruEntry]
    (which [add] never pushes) and the key has no expiry instant or one that
    has not passed, the lookup returns the stored value as found and moves
    the element to the back of the list, changing nothing else. *)
Theorem FindCache_hit (now : Time) (k : string) (id : nat) (e : Element)
    (en : LruEntry) (c : LruCache) :
  lru.mu c = unlocked -> items c !! k = Some id ->
  elemAt id (list_ c) = Some e -> EValue e = AnyEntry en ->
  (forall t, expires c !! k = Some t -> now <= t) ->
  FindCache now k c
  = Ret (Some (value en), true) (set_list_ (Remove id (list_ c) ++ [e]) c).
Proof.
  intros Hmu Hk He Hen Hexp. unfold FindCache. cbn [bind].
  rewrite (mu_RLock_unlocked c Hmu). simpl. rewrite Hk.
  assert (Hgo : forall (A : Type) (x y : A),
            match expires c !! k with
            | Some t => if After now t then x else y
            | None => y
            end = y).
  { intros A x y. destruct (expires c !! k) as [t|] eqn:Et; [|done].
    unfold After. by rewrite (proj2 (Z.ltb_ge t now) (Hexp t eq_refl)). }
  rewrite Hgo. simpl. unfold elemValue. simpl. rewrite He, Hen. simpl.
  rewrite Hk. simpl. unfold MoveToBack. rewrite He.
  f_equal. clear -Hmu. destruct c. simpl in Hmu. by subst.
Qed.

(** ** The properties above on the engines of the examples *)

Lemma noneExpiredb_spec (now : Time) (c : LruCache) :
  noneExpiredb now c = true -> noneExpired now c.
Proof.
  unfold noneExpiredb, noneExpired. rewrite forallb_forall.
  intros H i j Hij Hexp.
  assert (In (i, j) (map_to_list (expires c))) as Hin
    by (apply list_elem_of_In; by apply elem_of_map_to_list).
  specialize (H (i, j) Hin). simpl in H. rewrite Hexp in H. simpl in H.
  by apply bool_decide_eq_true in H.
Qed.

Lemma pushedAs_WF (f : LruEntry -> Any) (c : LruCache) :
  (forall en, entryOf (f en) = en) -> WF c -> WF (pushedAs f c).
Proof.
  intros Hf. apply WF_perm; try done. simpl.
  assert (forall l : list Element,
            nodes ((fun e => mkElement (eid e) (f (entryOf (EValue e)))) <$> l)
            = nodes l) as H.
  { induction l as [|e l IH]; [done|].
    change (nodes (mkElement (eid e) (f (entryOf (EValue e))) ::
                   ((fun e => mkElement (eid e) (f (entryOf (EValue e)))) <$> l))
            = (eid e, keyOf e) :: nodes l).
    change ((eid e, key (entryOf (f (entryOf (EValue e))))) ::
            nodes ((fun e => mkElement (eid e) (f (entryOf (EValue e)))) <$> l)
            = (eid e, keyOf e) :: nodes l).
    by rewrite IH, Hf. }
  by rewrite H.
Qed.

(** [engineK] is reached by its insertion. *)
Ltac reach_engineK :=
  apply (reachable_run (NewLruCache opts20) engineK
           (OpAddAndUpdate (clockAt 0) "K" (Some (sized 10))));
  [ apply reachable_new | vm_compute; reflexivity ].

Lemma insert_fresh_witness :
  AddAndUpdateCache (clockAt 0) "K" (Some (sized 10)) (NewLruCache opts20)
  = Ret None (inserted (clockAt 0 0%nat) "K" (sized 10) (NewLruCache opts20)).
Proof.
  apply (insert_fresh (clockAt 0) "K" (sized 10) (NewLruCache opts20)).
  - reflexivity.
  - reflexivity.
  - apply noneExpiredb_spec. vm_compute. reflexivity.
  - vm_compute. reflexivity.
Defined.

Lemma insert_absent_outcomes_witness :
  (AddAndUpdateCache (clockAt 0) "big" (Some (sized 100)) engineK
     = Ret None (inserted (clockAt 0 0%nat) "big" (sized 100) engineK) /\
   noneExpired (clockAt 0 1%nat) (inserted (clockAt 0 0%nat) "big" (sized 100) engineK) /\
   overBudget (inserted (clockAt 0 0%nat) "big" (sized 100) engineK) = false) \/
  (AddAndUpdateCache (clockAt 0) "big" (Some (sized 100)) engineK
     = Crash PanicTypeAssertion (inserted (clockAt 0 0%nat) "big" (sized 100) engineK) /\
   ~ (noneExpired (clockAt 0 1%nat) (inserted (clockAt 0 0%nat) "big" (sized 100) engineK) /\
      overBudget (inserted (clockAt 0 0%nat) "big" (sized 100) engineK) = false)).
Proof.
  apply (insert_absent_outcomes (clockAt 0) "big" (sized 100) engineK).
  - reach_engineK.
  - vm_compute. reflexivity.
Defined.

Lemma reaper_tick_outcomes_witness :
  cleanupLoop [CloseSignal; Tick 200] engineK = LoopReturned None engineK.
Proof.
  apply (reaper_tick_outcomes 100 [Tick 200] engineK). reach_engineK.
Defined.

Lemma reachable_only_grows_witness :
  evictions engineKU = [] /\ goroutines engineKU = [] /\
  dom (items engineKU) ⊆ dom (expires engineKU).
Proof.
  destruct (reachable_only_grows engineKU) as (H1 & H2 & H3 & _).
  - reach_engineKU.
  - split; [exact H1|]. split; [exact H2 | exact H3].
Defined.

Lemma engine_errors_witness :
  list_ engineRefused = list_ engineLogged /\
  currentBytes engineRefused = currentBytes engineLogged.
Proof.
  destruct (proj2 (proj2 engine_errors) (clockAt 1) "K"%string (Some (sized 20))
              engineLogged (ErrAddAndUpdateUpdate ErrUpdateCapacity) engineRefused)
    as (_ & _ & _ & Hl & _ & Hc & _).
  - vm_compute. reflexivity.
  - split; [exact Hl | exact Hc].
Defined.

Lemma absent_key_noops_witness : DeleteCache "x" engineK = Ret None engineK.
Proof.
  apply (proj1 (proj2 absent_key_noops) "x"%string engineK).
  - reflexivity.
  - vm_compute. reflexivity.
Defined.

Lemma FindCache_expired_never_returns_witness :
  resultOf (FindCache 100 "K" engineK) = None /\
  goroutines (stateOf (FindCache 100 "K" engineK)) = goroutines engineK ++ ["K"%string].
Proof.
  apply (FindCache_expired_never_returns 100 50 "K" engineK).
  - reflexivity.
  - vm_compute. by eexists.
  - vm_compute. reflexivity.
  - lia.
Defined.

Lemma evict_post_witness :
  overBudget (stateOf (evict 100 (pushedAs AnyPtr engineKU))) = false /\
  expires (stateOf (evict 100 (pushedAs AnyPtr engineKU)))
  = expires (pushedAs AnyPtr engineKU).
Proof.
  destruct (evict_post 100 (pushedAs AnyPtr engineKU)
              (stateOf (evict 100 (pushedAs AnyPtr engineKU))) None)
    as (_ & Hb & _ & He & _).
  - apply pushedAs_WF; [done|]. apply reachable_WF. reach_engineKU.
  - vm_compute. reflexivity.
  - split; [exact Hb | exact He].
Defined.

Lemma construction_defaults_witness :
  lru.MaxBytes (withDefault opts20) = lru.MaxBytes opts20.
Proof.
  destruct (construction_defaults opts20) as (_ & _ & _ & H & _).
  apply H. reflexivity.
Defined.

Lemma Close_twice_panics_witness :
  exists c1, Close engineKU = Ret tt c1 /\ closeChan c1 = true /\
             cleanupLoop [CloseSignal] c1 = LoopReturned None c1 /\
             Close c1 = Crash PanicCloseClosed c1.
Proof. apply (Close_twice_panics engineKU). reach_engineKU. Defined.

Lemma Len_counts_the_index_witness :
  NoDup (keyOf <$> list_ engineKU) /\
  LruCache_Len engineKU = Ret (Z.of_nat (size (items engineKU))) engineKU.
Proof.
  apply (Len_counts_the_index engineKU).
  - apply reachable_WF. reach_engineKU.
  - reflexivity.
Defined.

Lemma byte_accounting_witness : Accounted engineK.
Proof.
  apply (proj1 (proj2 byte_accounting)
           (OpAddAndUpdate (clockAt 0) "K" (Some (sized 10)))
           (NewLruCache opts20) engineK).
  - apply (proj1 byte_accounting).
  - vm_compute. reflexivity.
Defined.

Lemma present_key_panics_witness :
  DeleteCache "K" engineKU = Crash PanicTypeAssertion engineKU.
Proof.
  apply (present_key_panics engineKU "K").
  - reach_engineKU.
  - vm_compute. by eexists.
Defined.

Lemma Get_counters_witness :
  main.hits (stateOf (main.Get (clockAt 0) "k" (facadeOver (Some (sized 3), true))))
  = wrap64 (main.hits (facadeOver (Some (sized 3), true)) + 1).
Proof.
  destruct (Get_counters (clockAt 0) "k" (facadeOver (Some (sized 3), true))
              (stateOf (main.Get (clockAt 0) "k" (facadeOver (Some (sized 3), true))))
              (mkByteView [], false))
    as [(_ & H & _) | [(H & _) | (_ & H & _)]].
  - discriminate.
  - discriminate.
  - reflexivity.
  - reflexivity.
  - discriminate H.
  - exact H.
Defined.

Lemma facade_before_init_witness :
  main.Get (clockAt 0) "k" (main.NewCache main.DefaultCacheOptions)
  = Ret (mkByteView [], false)
        (main.set_misses (wrap64 (main.misses (main.NewCache main.DefaultCacheOptions) + 1))
           (main.NewCache main.DefaultCacheOptions)).
Proof.
  apply (proj1 (proj2 facade_before_init)).
  - discriminate.
  - reflexivity.
Defined.

Lemma FindCache_hit_witness :
  FindCache 10 "K" (pushedAs AnyEntry engineK)
  = Ret (Some (sized 10), true)
        (set_list_ (Remove 0 (list_ (pushedAs AnyEntry engineK))
                    ++ [mkElement 0 (AnyEntry (mkLruEntry "K" (sized 10)))])
           (pushedAs AnyEntry engineK)).
Proof.
  apply (FindCache_hit 10 "K" 0 (mkElement 0 (AnyEntry (mkLruEntry "K" (sized 10))))
           (mkLruEntry "K" (sized 10)) (pushedAs AnyEntry engineK)).
  - reflexivity.
  - vm_compute. reflexivity.
  - reflexivity.
  - reflexivity.
  - intros t H. vm_compute in H. injection H as <-. lia.
Defined.

(** ** The facade over the engine, and the paths behind the assertions *)

Lemma set_store_id (o : StoreObj) (c : main.Cache) :
  main.store c = Some o -> main.set_store (Some o) c = c.
Proof. intros H. destruct c. simpl in H. by subst. Qed.

(** X17. [Get] through the engine. On a facade that is initialized, not
    closed and unlocked, whose store is an engine reached through the
    operations: a [Get] of a key absent from the engine counts a miss and
    changes nothing else; a [Get] of a key present in the engine panics at
    the type assertion of [FindCache], with both counters as they were. So
    no [Get] returns a value. *)
Theorem Get_over_the_engine (clk : Clock) (k : string) (c : main.Cache)
    (e : LruCache) :
  main.store c = Some (mkStoreObj LruCache LruCache_Store e) ->
  reachable e -> main.closed c <> 1 -> main.initialized c <> 0 ->
  main.mu c = unlocked ->
  (items e !! k = None ->
   main.Get clk k c
   = Ret (mkByteView [], false) (main.set_misses (wrap64 (main.misses c + 1)) c)) /\
  (is_Some (items e !! k) ->
   faultOf (main.Get clk k c) = Some PanicTypeAssertion /\
   main.hits (stateOf (main.Get clk k c)) = main.hits c /\
   main.misses (stateOf (main.Get clk k c)) = main.misses c /\
   main.mu (stateOf (main.Get clk k c)) = unlocked).
Proof.
  intros Hs Hr Hc Hi Hmu.
  destruct (reachable_Quiet e Hr) as [Hemu Ha _ _].
  assert (Hhead : forall X (x y z : M main.Cache X),
            (let* c0 := get in
             if main.closed c0 =? 1 then x
             else if main.initialized c0 =? 0 then y else z) c = z c).
  { intros X x y z. simpl.
    destruct (main.closed c =? 1) eqn:E1; [by apply Z.eqb_eq in E1|].
    by destruct (main.initialized c =? 0) eqn:E2; [apply Z.eqb_eq in E2|]. }
  unfold main.Get. rewrite !Hhead. clear Hhead.
  unfold main.onMu, defer, main.onStore. simpl. rewrite Hmu. simpl. rewrite Hs.
  simpl. split.
  - intros Hk.
    assert (FindCache (clk 0%nat) k e = Ret (None, false) e) as ->.
    { apply (proj2 (proj2 absent_key_noops_aux)); [by rewrite Hemu | done]. }
    simpl. f_equal. clear -Hs Hmu. destruct c. simpl in *. by subst.
  - intros Hk.
    destruct (FindCache (clk 0%nat) k e) as [r e'|f e'] eqn:E.
    + by destruct (FindCache_as_added _ _ _ _ _ Ha Hemu E) as (Hn & _);
        rewrite Hn in Hk; destruct Hk.
    + assert (f = PanicTypeAssertion) as ->.
      { pose proof (FindCache_present_fault e k Hr Hk (clk 0%nat)) as H.
        rewrite E in H. simpl in H. by injection H. }
      done.
Qed.

Lemma MoveToBack_setValue (id : nat) (a : Any) (l : list Element) (e : Element) :
  elemAt id l = Some e ->
  MoveToBack id (setValue id a l) = Remove id l ++ [mkElement id a].
Proof.
  intros He. unfold MoveToBack.
  assert (elemAt id (setValue id a l) = Some (mkElement id a) /\
          Remove id (setValue id a l) = Remove id l) as [-> ->]; [|done].
  induction l as [|x l IH]; simpl in *; [discriminate|].
  destruct (Nat.eqb (eid x) id) eqn:E; simpl.
  - by rewrite Nat.eqb_refl.
  - rewrite E. destruct (IH He) as [-> ->]. done.
Qed.

(** X18. The path of [DeleteCache] behind the assertion of [removeCache].
    When the lock is free, the key is in the index map and its element holds
    a [*LruEntry] (which [add] never pushes), [DeleteCache] returns nil and
    leaves [removed ...]: the element is out of the list, the entry's key
    out of the index map, its bytes subtracted with wrap-around, the
    callback called once with its key and value when there is one; the
    expiry map keeps the key's instant. When the index map and the list
    describe each other, the key removed is the key asked for. *)
Theorem DeleteCache_removes (k : string) (id : nat) (e : Element)
    (en : LruEntry) (c : LruCache) :
  lru.mu c = unlocked -> items c !! k = Some id ->
  elemAt id (list_ c) = Some e -> EValue e = AnyPtr en ->
  DeleteCache k c = Ret None (removed id en c) /\
  expires (removed id en c) = expires c /\
  (WF c -> key en = k /\ items (removed id en c) !! k = None).
Proof.
  intros Hmu Hk He Hen. split; [|split; [done|]].
  - unfold DeleteCache. cbn [bind].
    rewrite (mu_Lock_unlocked c Hmu). unfold defer. simpl. rewrite Hk. cbn [bind].
    unfold removeCache, elemValue. simpl. rewrite He, Hen. simpl.
    unfold removed, entryBytes. rewrite delete_delete_eq.
    clear -Hmu. destruct c. simpl in Hmu. subst. simpl.
    by destruct onEvicted0.
  - intros HW.
    assert (key en = k) as Hkey.
    { apply (wf_index c HW) in Hk.
      destruct (elemAt_in _ _ _ He) as [Hin Hid].
      assert ((id, keyOf e) ∈ nodes (list_ c)) as Hin'.
      { apply list_elem_of_fmap. exists e. by rewrite Hid. }
      pose proof (NoDup_fst_unique _ _ _ _ (wf_ids c HW) Hin' Hk) as Hkk.
      unfold keyOf in Hkk. by rewrite Hen in Hkk. }
    split; [done|]. simpl. rewrite Hkey. apply lookup_delete_eq.
Qed.

(** X19. The path of [AddAndUpdateCache] behind the assertion of [update].
    When the lock is free, the key is in the index map, its element holds a
    [*LruEntry] (which [add] never pushes) and the byte counter with the new
    value in place of the old one, wrapped, does not exceed the capacity,
    the call returns nil and leaves [updated ...]: the element, with the new
    value under the same key, is at the back of the list and the counter is
    adjusted; index map and expiry map are as before. *)
Theorem update_within_capacity (clk : Clock) (k : string) (id : nat)
    (e : Element) (en : LruEntry) (v : Value) (c : LruCache) :
  lru.mu c = unlocked -> items c !! k = Some id ->
  elemAt id (list_ c) = Some e -> EValue e = AnyPtr en ->
  wrap64 (currentBytes c + wrap64 (Len v - Len (value en))) <= maxBytes c ->
  AddAndUpdateCache clk k (Some v) c = Ret None (updated id en v c) /\
  items (updated id en v c) = items c /\
  expires (updated id en v c) = expires c.
Proof.
  intros Hmu Hk He Hen Hfit. split; [|done].
  unfold AddAndUpdateCache. cbn [bind].
  rewrite (mu_Lock_unlocked c Hmu). unfold defer. simpl. rewrite Hk. cbn [bind].
  unfold update, elemValue. simpl. rewrite He, Hen. simpl.
  rewrite (proj2 (Z.ltb_ge _ _) Hfit). simpl.
  rewrite (MoveToBack_setValue id _ (list_ c) e He).
  unfold updated. f_equal. clear -Hmu. destruct c. simpl in Hmu. by subst.
Qed.

Lemma Get_over_the_engine_witness :
  faultOf (main.Get (clockAt 0) "K" (facadeOnEngine engineKU))
    = Some PanicTypeAssertion /\
  main.hits (stateOf (main.Get (clockAt 0) "K" (facadeOnEngine engineKU)))
    = main.hits (facadeOnEngine engineKU) /\
  main.misses (stateOf (main.Get (clockAt 0) "K" (facadeOnEngine engineKU)))
    = main.misses (facadeOnEngine engineKU) /\
  main.mu (stateOf (main.Get (clockAt 0) "K" (facadeOnEngine engineKU))) = unlocked.
Proof.
  apply (Get_over_the_engine (clockAt 0) "K" (facadeOnEngine engineKU) engineKU).
  - reflexivity.
  - reach_engineKU.
  - discriminate.
  - discriminate.
  - reflexivity.
  - vm_compute. by eexists.
Defined.

Lemma DeleteCache_removes_witness :
  DeleteCache "K" (pushedAs AnyPtr engineKU)
    = Ret None (removed 0 (mkLruEntry "K" (sized 10)) (pushedAs AnyPtr engineKU)) /\
  items (removed 0 (mkLruEntry "K" (sized 10)) (pushedAs AnyPtr engineKU))
    !! "K"%string = None.
Proof.
  destruct (DeleteCache_removes "K" 0
              (mkElement 0 (AnyPtr (mkLruEntry "K" (sized 10))))
              (mkLruEntry "K" (sized 10)) (pushedAs AnyPtr engineKU))
    as (H1 & _ & H3).
  - reflexivity.
  - vm_compute. reflexivity.
  - reflexivity.
  - reflexivity.
  - split; [exact H1|]. apply H3.
    apply pushedAs_WF; [done|]. apply reachable_WF. reach_engineKU.
Defined.

Lemma update_within_capacity_witness :
  AddAndUpdateCache (clockAt 7) "K" (Some (sized 12)) (pushedAs AnyPtr engineKU)
    = Ret None (updated 0 (mkLruEntry "K" (sized 10)) (sized 12)
                  (pushedAs AnyPtr engineKU)) /\
  items (updated 0 (mkLruEntry "K" (sized 10)) (sized 12) (pushedAs AnyPtr engineKU))
    = items (pushedAs AnyPtr engineKU) /\
  expires (updated 0 (mkLruEntry "K" (sized 10)) (sized 12) (pushedAs AnyPtr engineKU))
    = expires (pushedAs AnyPtr engineKU).
Proof.
  apply (update_within_capacity (clockAt 7) "K" 0
           (mkElement 0 (AnyPtr (mkLruEntry "K" (sized 10))))
           (mkLruEntry "K" (sized 10)) (sized 12) (pushedAs AnyPtr engineKU)).
  - reflexivity.
  - vm_compute. reflexivity.
  - reflexivity.
  - reflexivity.
  - vm_compute. discriminate.
Defined.
